(** * typedex: the type-level validators of [@typedex/indexed-db]

    A shallow embedding of the conditional types of
    [indexed-db/src/lib/greater-than.types.ts],
    [indexed-db/src/lib/migration-builder.types.ts] and
    [indexed-db/src/lib/migration-error.types.ts], of the return types
    of the builder methods of [migration-builder.ts], and of the function
    [addCutAfterImports] of the documentation plugin
    [remark-code-import.mjs].

    The program runs inside the TypeScript type checker: each exported
    [type F<A, B> = ...] is a total function from types to types.  It is
    embedded as a Rocq function from (a universe of) types to types, a
    conditional type [X extends Y ? a : b] becoming an [if] on the
    decidable assignability test it performs, and template-literal
    inference ([`${infer First}.${infer Rest}`]) becoming the string
    function that computes the inferred parts. *)

From Stdlib Require Import ZArith String Ascii List Bool Lia.
From stdpp Require Import gmap strings list.
From Equations Require Import Equations.
Import ListNotations.

Local Open Scope string_scope.
Local Open Scope Z_scope.

(** ** Template-literal string helpers *)

Module Template.

(** [s extends `${c}${infer Rest}`] for a one-character literal [c]. *)
Definition strip_prefix_char (c : ascii) (s : string) : option string :=
  match s with
  | String c' rest => if Ascii.eqb c c' then Some rest else None
  | EmptyString => None
  end.

(** [s extends `${string}${c}${infer Rest}`]: the text after the first
    occurrence of the character [c]. *)
Fixpoint after_char (c : ascii) (s : string) : option string :=
  match s with
  | EmptyString => None
  | String c' rest => if Ascii.eqb c c' then Some rest else after_char c rest
  end.

(** [s extends `${infer First}${c}${infer Rest}`]: TypeScript infers
    [First] as the text before the first occurrence of [c] and [Rest] as
    everything after it. *)
Fixpoint split_at_char (c : ascii) (s : string) : option (string * string) :=
  match s with
  | EmptyString => None
  | String c' rest =>
      if Ascii.eqb c c' then Some (EmptyString, rest)
      else match split_at_char c rest with
           | Some (first, rest') => Some (String c' first, rest')
           | None => None
           end
  end.

Lemma split_at_char_length c s first rest :
  split_at_char c s = Some (first, rest) ->
  (String.length rest < String.length s)%nat.
Proof.
  revert first rest. induction s as [|c' s IH]; intros first rest; simpl.
  - discriminate.
  - destruct (Ascii.eqb c c').
    + intros [= <- <-]. lia.
    + destruct (split_at_char c s) as [[f r]|] eqn:E; [|discriminate].
      intros [= <- <-]. specialize (IH _ _ eq_refl). lia.
Qed.

Lemma split_at_char_spec c s first rest :
  split_at_char c s = Some (first, rest) ->
  s = String.append first (String c rest) /\ after_char c first = None.
Proof.
  revert first rest. induction s as [|c' s IH]; intros first rest; simpl.
  - discriminate.
  - destruct (Ascii.eqb c c') eqn:Ec.
    + intros [= <- <-]. apply Ascii.eqb_eq in Ec. subst. auto.
    + destruct (split_at_char c s) as [[f r]|] eqn:E; [|discriminate].
      intros [= <- <-]. destruct (IH _ _ eq_refl) as [-> Hf].
      split; [reflexivity|]. simpl. rewrite Ec. assumption.
Qed.

Lemma split_at_char_None c s :
  split_at_char c s = None <-> after_char c s = None.
Proof.
  induction s as [|c' s IH]; simpl; [tauto|].
  destruct (Ascii.eqb c c'); [split; discriminate|].
  destruct (split_at_char c s) as [[f r]|].
  - split; [discriminate|]. intros H. apply IH in H. discriminate.
  - tauto.
Qed.

End Template.

(** ** [greater-than.types.ts] *)

Module GreaterThan.

(** *** Number types and their template-literal text

    A type argument [A extends number] is the broad type [number] or a
    number literal type.  The literals of the embedding are the
    integer-valued ones and the two literals that overflow to an infinity
    ([1e999] and [-1e999], the source's [NegativeInfinity] alias). *)
Inductive NumLit : Type :=
| Finite (z : Z)
| PosInfinity
| NegInfinity.

Inductive NumTy : Type :=
| number
| Lit (n : NumLit).

(** Two literal types are the same type when they are the same number. *)
Definition NumLit_eqb (a b : NumLit) : bool :=
  match a, b with
  | Finite x, Finite y => x =? y
  | PosInfinity, PosInfinity => true
  | NegInfinity, NegInfinity => true
  | _, _ => false
  end.

Lemma NumLit_eqb_eq a b : NumLit_eqb a b = true <-> a = b.
Proof.
  destruct a, b; simpl; try (split; [discriminate|intros [=]]); try tauto.
  rewrite Z.eqb_eq. split; [congruence|]. intros [=]. assumption.
Qed.

(** The character of a decimal digit [0 <= d < 10]. *)
Definition digit_char (d : Z) : ascii := ascii_of_N (48 + Z.to_N d).

(** Decimal digits of a non-negative integer, most significant first.
    [fuel] bounds the number of digits after the first. *)
Fixpoint decimal_fuel (fuel : nat) (m : Z) : string :=
  match fuel with
  | O => String (digit_char (m mod 10)) EmptyString
  | S f =>
      if m <? 10 then String (digit_char m) EmptyString
      else String.append (decimal_fuel f (m / 10))
                         (String (digit_char (m mod 10)) EmptyString)
  end.

Definition decimal (m : Z) : string :=
  decimal_fuel (Z.to_nat (Z.log2 m)) m.

(** Drop the trailing zeros of a digit string (significand of the
    exponent form). *)
Fixpoint strip_trailing_zeros (s : string) : string :=
  match s with
  | EmptyString => EmptyString
  | String c rest =>
      match strip_trailing_zeros rest with
      | EmptyString => if Ascii.eqb c "0" then EmptyString else String c EmptyString
      | rest' => String c rest'
      end
  end.

(** ECMAScript [Number::toString] on a non-negative integer [m], which is
    what the checker uses for [`${N}`].  Below [10^21] the text is the
    plain decimal expansion; from [10^21] on it is the exponent form
    [d.ddde+n] (or [de+n] for a one-digit significand).

    The significand is read off the decimal expansion of [m], trailing
    zeros dropped; these are the digits ECMAScript prints whenever they
    are the shortest that identify the double, as for [1e21].  A literal
    above [2^53] names a double: the integer that stands for it in the
    embedding is the one its printed digits denote. *)
Definition magnitude_to_string (m : Z) : string :=
  let ds := decimal m in
  if m <? 10 ^ 21 then ds
  else
    let e := decimal (Z.of_nat (String.length ds) - 1) in
    match strip_trailing_zeros ds with
    | String d EmptyString =>
        String d (String.append "e+" e)
    | String d frac =>
        String d (String.append "." (String.append frac (String.append "e+" e)))
    | EmptyString => ds
    end.

(** [`${N}`] for a number literal [N]. *)
Definition NumberToString (n : NumLit) : string :=
  match n with
  | Finite z =>
      if z <? 0 then String "-" (magnitude_to_string (- z))
      else magnitude_to_string z
  | PosInfinity => "Infinity"
  | NegInfinity => "-Infinity"
  end.

(** *** The comparison types *)

Definition DigitString : string := "0123456789".

(** [c extends Digit], the union ['0' | '1' | ... | '9']. *)
Definition Digit (c : ascii) : bool :=
  existsb (Ascii.eqb c)
    ["0"; "1"; "2"; "3"; "4"; "5"; "6"; "7"; "8"; "9"]%char.

(** [DigitGreaterThan<A, B>]: [B] occurs in [DigitString] and [A] occurs
    after it, the match of [`${string}${B}${string}${A}${string}`]. *)
Definition DigitGreaterThan (A B : ascii) : bool :=
  if Ascii.eqb A B then false
  else match Template.after_char B DigitString with
       | Some rest =>
           match Template.after_char A rest with
           | Some _ => true
           | None => false
           end
       | None => false
       end.

(** [CompareSameLengthPositive<A, B>], with the literal types [1], [-1]
    and [0] as integers. *)
Fixpoint CompareSameLengthPositive (A B : string) : Z :=
  match A with
  | String DA RestA =>
      if Digit DA then
        match B with
        | String DB RestB =>
            if Digit DB then
              if Ascii.eqb DA DB then CompareSameLengthPositive RestA RestB
              else if DigitGreaterThan DA DB then 1 else -1
            else 0
        | EmptyString => 0
        end
      else 0
  | EmptyString => 0
  end.

(** [IsLonger<A, B>]: [`${string}${infer Rest}`] drops one character. *)
Fixpoint IsLonger (A B : string) : bool :=
  match A with
  | String _ RestA =>
      match B with
      | String _ RestB => IsLonger RestA RestB
      | EmptyString => true
      end
  | EmptyString => false
  end.

(** [PositiveStringGreaterThan<A, B>]: length first, then digit by digit. *)
Definition PositiveStringGreaterThan (A B : string) : bool :=
  if IsLonger A B then true
  else if IsLonger B A then false
  else if CompareSameLengthPositive A B =? 1 then true
  else false.

(** [IsNegative<N>]: [`${N}` extends `-${string}`]. *)
Definition IsNegative (N : NumLit) : bool :=
  match Template.strip_prefix_char "-" (NumberToString N) with
  | Some _ => true
  | None => false
  end.

(** [AbsoluteString<N>]: the text without its leading minus. *)
Definition AbsoluteString (N : NumLit) : string :=
  match Template.strip_prefix_char "-" (NumberToString N) with
  | Some Abs => Abs
  | None => NumberToString N
  end.

(** The types [IsEqual] is applied to: a number type, or the type of the
    declared constant [NegativeInfinity].  [typeof Infinity] is the type
    of the global [Infinity], which [lib.es5.d.ts] declares as [number];
    [typeof NegativeInfinity] is the type of the value
    [declare const NegativeInfinity: unique symbol], not the type alias of
    the same name. *)
Inductive Operand : Type :=
| ONum (t : NumTy)
| OUniqueSymbol.

Definition typeof_Infinity : Operand := ONum number.
Definition typeof_NegativeInfinity : Operand := OUniqueSymbol.

(** [[A] extends [B]]. *)
Definition assignable (A B : Operand) : bool :=
  match A, B with
  | ONum (Lit a), ONum (Lit b) => NumLit_eqb a b
  | ONum _, ONum number => true
  | ONum number, ONum (Lit _) => false
  | OUniqueSymbol, OUniqueSymbol => true
  | _, _ => false
  end.

(** [IsEqual<A, B>]. *)
Definition IsEqual (A B : Operand) : bool :=
  if assignable A B then (if assignable B A then true else false) else false.

(** [CompareFinite<A, B>]. *)
Definition CompareFinite (A B : NumLit) : bool :=
  match IsNegative A, IsNegative B with
  | true, true =>
      PositiveStringGreaterThan (AbsoluteString B) (AbsoluteString A)
  | true, false => false
  | false, true => true
  | false, false =>
      PositiveStringGreaterThan (AbsoluteString A) (AbsoluteString B)
  end.

(** [IsGreaterThan<A, B>] on single (non-union) types; the outer
    [A extends A] and [B extends B] only distribute over union members.
    The last branch is reached with two literals only: [number] is equal
    to [typeof Infinity] and leaves through an earlier branch. *)
Definition IsGreaterThan (A B : NumTy) : bool :=
  let AIsInf := IsEqual (ONum A) typeof_Infinity in
  let AIsNegInf := IsEqual (ONum A) typeof_NegativeInfinity in
  let BIsInf := IsEqual (ONum B) typeof_Infinity in
  let BIsNegInf := IsEqual (ONum B) typeof_NegativeInfinity in
  if AIsInf then (if BIsInf then false else true)
  else if BIsNegInf then (if AIsNegInf then false else true)
  else if AIsNegInf then false
  else if BIsInf then false
  else match A, B with
       | Lit a, Lit b => CompareFinite a b
       | _, _ => false
       end.

Definition LessThan (A B : NumTy) : bool := IsGreaterThan B A.

(** [A extends B ? true : IsGreaterThan<A, B>]. *)
Definition GreaterThanOrEqual (A B : NumTy) : bool :=
  if assignable (ONum A) (ONum B) then true else IsGreaterThan A B.

Definition LessThanOrEqual (A B : NumTy) : bool :=
  if assignable (ONum A) (ONum B) then true else LessThan A B.

(** [#z] is the literal type of the integer [z]. *)
Notation "# z" := (Lit (Finite z)) (at level 5, format "# z").

End GreaterThan.

(** ** The universe of value types

    The types a stored value can have, as far as the validators look at
    them: primitives and literals, the built-in key types, arrays, tuples,
    object types with required and optional data properties, and unions.
    [any], index signatures and function-typed members (the methods of the
    built-in interfaces) are outside the universe. *)

Module Types.

#[warnings="-register-all"]
Inductive ty : Type :=
| TUnknown
| TNever
| TUndefined
| TNull
| TBoolean
| TNumber
| TNumLit (n : Z)
| TString
| TStrLit (s : string)
| TDate
| TBufferSource
| TIDBValidKey
| TArray (elem : ty)
| TTuple (elems : list ty)
| TObject (props : list (string * (bool * ty)))
| TUnion (members : list ty).

(** An object property [name: t] or [name?: t]. *)
Definition required (name : string) (t : ty) : string * (bool * ty) :=
  (name, (false, t)).
Definition optional (name : string) (t : ty) : string * (bool * ty) :=
  (name, (true, t)).

(** The constituents a distributive conditional type is applied to:
    unions are flattened, [never] is the empty union, and the alias
    [IDBValidKey] is the union
    [number | string | Date | BufferSource | IDBValidKey[]].
    ([boolean] is kept as one constituent: its two literals behave alike
    in every check of this development.) *)
Fixpoint constituents (t : ty) : list ty :=
  match t with
  | TNever => []
  | TUnion ms => flat_map constituents ms
  | TIDBValidKey =>
      [TNumber; TString; TDate; TBufferSource; TArray TIDBValidKey]
  | _ => [t]
  end.

(** [X extends IDBValidKey] as an assignability test on the whole of [X]
    (the check of a conditional type that does not distribute). *)
Fixpoint extends_IDBValidKey (t : ty) : bool :=
  match t with
  | TNever => true
  | TNumber | TNumLit _ | TString | TStrLit _ => true
  | TDate | TBufferSource | TIDBValidKey => true
  | TArray e => extends_IDBValidKey e
  | TTuple es => forallb extends_IDBValidKey es
  | TUnion ms => forallb extends_IDBValidKey ms
  | TUnknown | TUndefined | TNull | TBoolean | TObject _ => false
  end.

(** [number extends X]. *)
Fixpoint number_extends (t : ty) : bool :=
  match t with
  | TUnknown | TNumber | TIDBValidKey => true
  | TObject [] => true
  | TUnion ms => existsb number_extends ms
  | _ => false
  end.

(** [X extends number], on the whole of [X]. *)
Fixpoint extends_number (t : ty) : bool :=
  match t with
  | TNever | TNumber | TNumLit _ => true
  | TUnion ms => forallb extends_number ms
  | _ => false
  end.

(** The element at a tuple's numeric key ["0"], ["1"], ... *)
Fixpoint tuple_element (k : string) (i : Z) (es : list ty) : option ty :=
  match es with
  | [] => None
  | e :: es' =>
      if String.eqb k (GreaterThan.decimal i) then Some e
      else tuple_element k (i + 1) es'
  end.

(** [K extends keyof T ? T[K] : (no such key)] for a string literal [K].
    An optional property reads as [t | undefined]; a key of a union is a
    key of every member and reads as the union of the members' types;
    [keyof never] is every key.  Of the built-in interfaces the data
    properties [length] and [byteLength] are kept. *)
Fixpoint lookup_prop (t : ty) (k : string) : option ty :=
  match t with
  | TObject props =>
      (fix find (ps : list (string * (bool * ty))) : option ty :=
         match ps with
         | [] => None
         | (name, (opt, t')) :: ps' =>
             if String.eqb name k
             then Some (if opt then TUnion [t'; TUndefined] else t')
             else find ps'
         end) props
  | TString | TStrLit _ => if String.eqb k "length" then Some TNumber else None
  | TArray _ => if String.eqb k "length" then Some TNumber else None
  | TTuple es =>
      if String.eqb k "length" then Some (TNumLit (Z.of_nat (length es)))
      else tuple_element k 0 es
  | TBufferSource =>
      if String.eqb k "byteLength" then Some TNumber else None
  | TNever => Some TNever
  | TUnion ms =>
      option_map TUnion
        ((fix all (ms : list ty) : option (list ty) :=
            match ms with
            | [] => Some []
            | m :: ms' =>
                match lookup_prop m k, all ms' with
                | Some t', Some ts => Some (t' :: ts)
                | _, _ => None
                end
            end) ms)
  | _ => None
  end.

(** The union of a list of types, [never] when the list is empty. *)
Definition union_of (ms : list ty) : ty :=
  match ms with
  | [] => TNever
  | [m] => m
  | _ => TUnion ms
  end.

(** The element type [E] inferred by [X extends (infer E)[]], when [X] is
    assignable to a mutable array: each constituent of [X] is an array or
    a tuple, and [E] is the union of their element types.  [never] is
    assignable with nothing to infer from, which leaves [E] as
    [unknown]. *)
Definition array_element (t : ty) : option ty :=
  match t with
  | TArray e => Some e
  | TTuple es => Some (TUnion es)
  | _ => None
  end.

Fixpoint array_elements (ms : list ty) : option (list ty) :=
  match ms with
  | [] => Some []
  | m :: ms' =>
      match array_element m, array_elements ms' with
      | Some e, Some es => Some (e :: es)
      | _, _ => None
      end
  end.

Definition infer_array_element (t : ty) : option ty :=
  match constituents t with
  | [] => Some TUnknown
  | [m] => array_element m
  | ms => option_map TUnion (array_elements ms)
  end.

End Types.

(** ** [migration-builder.types.ts]: key paths *)

Module KeyPath.
Import Types.

(** The types passed as a key path: [undefined], a string literal, a
    literal tuple of string literals, the widened [readonly string[]]
    (also [string[]]), and [never]. *)
Inductive pathTy : Type :=
| PNever
| PUndefined
| PStr (s : string)
| PTuple (ps : list string)
| PStringArray.

(** [X extends never ? never : P], the test applied to the result of a
    nested validation. *)
Definition unless_never (X P : pathTy) : pathTy :=
  match X with
  | PNever => PNever
  | _ => P
  end.

(** The distributive check [T extends IDBValidKey ? P : never] on the
    type parameter [T]: the union, over the constituents of [T], of [P]
    or [never]. *)
Definition distribute_IDBValidKey (T : ty) (P : pathTy) : pathTy :=
  if existsb extends_IDBValidKey (constituents T) then P else PNever.

Definition inspect {A} (a : A) : {b | a = b} := exist _ a eq_refl.

(** [ValidateStringPath<T, Path>] for a string literal [Path]. *)
Equations? ValidateStringPath (T : ty) (Path : string) : pathTy
  by wf (String.length Path) lt :=
  ValidateStringPath T Path with String.eqb Path "" => {
    | true => distribute_IDBValidKey T (PStr Path)
    | false with inspect (Template.split_at_char "." Path) => {
        | exist _ (Some (First, Rest)) _ with lookup_prop T First => {
            | Some TFirst =>
                unless_never (ValidateStringPath TFirst Rest) (PStr Path)
            | None => PNever };
        | exist _ None _ with lookup_prop T Path => {
            | Some TPath =>
                if extends_IDBValidKey TPath then PStr Path else PNever
            | None => PNever } } }.
Proof.
  eapply Template.split_at_char_length; eassumption.
Qed.

(** [ResolveSingleKeyPath<T, Path>]. *)
Equations? ResolveSingleKeyPath (T : ty) (Path : string) : ty
  by wf (String.length Path) lt :=
  ResolveSingleKeyPath T Path with inspect (Template.split_at_char "." Path) => {
    | exist _ (Some (First, Rest)) _ with lookup_prop T First => {
        | Some TFirst => ResolveSingleKeyPath TFirst Rest
        | None => TNever };
    | exist _ None _ with lookup_prop T Path => {
        | Some TPath => TPath
        | None => TNever } }.
Proof.
  eapply Template.split_at_char_length; eassumption.
Qed.

(** [ValidateArrayPath<T, Path, OriginalT>] on a literal tuple [Path].
    The result is the tuple itself or [never]. *)
Fixpoint ValidateArrayPath_tuple (T : ty) (Path : list string) (OriginalT : ty)
  : pathTy :=
  match Path with
  | First :: Rest =>
      match Template.split_at_char "." First with
      | Some (K, Nested) =>
          match lookup_prop T K with
          | Some TK =>
              match ValidateStringPath TK Nested with
              | PNever => PNever
              | _ =>
                  match Rest with
                  | [] => PTuple Path
                  | _ => unless_never
                           (ValidateArrayPath_tuple OriginalT Rest OriginalT)
                           (PTuple Path)
                  end
              end
          | None => PNever
          end
      | None =>
          match lookup_prop T First with
          | Some TFirst =>
              if extends_IDBValidKey TFirst then
                match Rest with
                | [] => PTuple Path
                | _ => unless_never
                         (ValidateArrayPath_tuple OriginalT Rest OriginalT)
                         (PTuple Path)
                end
              else PNever
          | None => PNever
          end
      end
  | [] => PTuple Path
  end.

(** [ValidateArrayPath<T, Path, OriginalT>]: a non-empty literal tuple is
    validated element by element, the empty tuple and the widened
    [readonly string[]] are returned as they are. *)
Definition ValidateArrayPath (T : ty) (Path : pathTy) (OriginalT : ty) : pathTy :=
  match Path with
  | PTuple ps => ValidateArrayPath_tuple T ps OriginalT
  | PStringArray => Path
  | _ => PNever
  end.

(** [ValidateKeyPath<T, Path>]; the conditional distributes over [Path],
    so [never] gives [never]. *)
Definition ValidateKeyPath (T : ty) (Path : pathTy) : pathTy :=
  match Path with
  | PNever => PNever
  | PUndefined => PUndefined
  | PStr s => ValidateStringPath T s
  | PTuple _ | PStringArray => ValidateArrayPath T Path T
  end.

(** [ResolveArrayKeyPath<T, Paths>], as the list of the element types of
    the resulting tuple type. *)
Fixpoint ResolveArrayKeyPath (T : ty) (Paths : list string) : list ty :=
  match Paths with
  | First :: Rest => ResolveSingleKeyPath T First :: ResolveArrayKeyPath T Rest
  | [] => []
  end.

(** [ResolveKeyPath<T, Path>].  The widened [readonly string[]] does not
    match the tuple pattern of [ResolveArrayKeyPath] and resolves to the
    empty tuple. *)
Definition ResolveKeyPath (T : ty) (Path : pathTy) : ty :=
  match Path with
  | PNever => TNever
  | PUndefined => TIDBValidKey
  | PTuple ps => TTuple (ResolveArrayKeyPath T ps)
  | PStringArray => TTuple []
  | PStr s => ResolveSingleKeyPath T s
  end.

(** The type argument [AutoIncrement extends boolean | undefined]. *)
Inductive autoTy : Type :=
| ATrue
| AFalse
| AUndefined.

(** [ValidateAutoIncrementKey<T, Path, AutoIncrement>]. *)
Definition ValidateAutoIncrementKey (T : ty) (Path : pathTy)
  (AutoIncrement : autoTy) : pathTy :=
  match AutoIncrement with
  | ATrue =>
      match Path with
      | PNever => PNever
      | PStr s =>
          if number_extends (ResolveSingleKeyPath T s) then Path
          else if extends_number (ResolveSingleKeyPath T s) then Path
          else PNever
      | PUndefined => Path
      | PTuple _ | PStringArray => PNever
      end
  | AFalse | AUndefined => Path
  end.

(** A type built from the literals [true] and [false]. *)
Inductive boolTy : Type :=
| BNever
| BTrue
| BFalse
| BBoolean.

Definition bool_union (a b : boolTy) : boolTy :=
  match a, b with
  | BNever, x | x, BNever => x
  | BTrue, BTrue => BTrue
  | BFalse, BFalse => BFalse
  | _, _ => BBoolean
  end.

(** The distributive check [E extends IDBValidKey ? true : false] on the
    inferred type parameter [E]. *)
Definition distribute_valid_key (E : ty) : boolTy :=
  fold_right bool_union BNever
    (map (fun m => if extends_IDBValidKey m then BTrue else BFalse)
         (constituents E)).

(** [ValidateMultiEntryIndex<Value, KeyPath, MultiEntry>] for a string
    literal [KeyPath] and a literal [MultiEntry]. *)
Definition ValidateMultiEntryIndex (Value : ty) (KeyPath : string)
  (MultiEntry : bool) : boolTy :=
  if MultiEntry then
    match infer_array_element (ResolveKeyPath Value (PStr KeyPath)) with
    | Some E => distribute_valid_key E
    | None => BFalse
    end
  else BTrue.

End KeyPath.

(** ** [migration-builder.types.ts]: version numbers *)

Module Version.
Import GreaterThan.

(** The type argument [PrevVersion extends number | undefined]:
    [undefined] before the first version, afterwards the literal of the
    version declared last. *)
Inductive prevTy : Type :=
| PrevUndefined
| PrevLit (p : NumLit).

(** The result of [ValidateVersion]: the number type [V], or a string
    literal type that reads as an error message. *)
Inductive versionTy : Type :=
| VNum (V : NumTy)
| VStr (message : string).

Definition broad_number_message : string :=
  "specific numeric literal or static constant (e.g. 1, 2, 3, …)".

(** [ValidateVersion<V, PrevVersion>]. *)
Definition ValidateVersion (V : NumTy) (PrevVersion : prevTy) : versionTy :=
  if assignable (ONum number) (ONum V) then VStr broad_number_message
  else
    match PrevVersion with
    | PrevUndefined => VNum V
    | PrevLit p =>
        if IsGreaterThan V (Lit p) then VNum V
        else VStr (String.append "integer greater than " (NumberToString p))
    end.

End Version.

(** ** [migration-builder.types.ts]: schemas *)

Module Schema.
Import Types KeyPath.

(** The Zod schema types the validators tell apart: a schema with a given
    output type, and the [ZodOptional] and [ZodNullable] wrappers. *)
Inductive zod : Type :=
| ZodType (output : ty)
| ZodOptional (inner : zod)
| ZodNullable (inner : zod).

(** [z.infer<S>]. *)
Fixpoint z_infer (Sch : zod) : ty :=
  match Sch with
  | ZodType t => t
  | ZodOptional inner => TUnion [z_infer inner; TUndefined]
  | ZodNullable inner => TUnion [z_infer inner; TNull]
  end.

(** A member of [Changes]: a schema, or a function [(prev) => schema]. *)
Inductive change : Type :=
| ChangeSchema (schema : zod)
| ChangeFunction (returns : zod).

Definition IsZodOptional (Sch : zod) : bool :=
  match Sch with
  | ZodOptional _ => true
  | _ => false
  end.

Definition InferZodType (c : change) : ty :=
  match c with
  | ChangeSchema Sch => z_infer Sch
  | ChangeFunction R => z_infer R
  end.

(** [Changes] is an object type, kept as its list of members. *)
Definition changes : Type := list (string * change).

Definition keyof_changes (Changes : changes) : list string :=
  map fst Changes.

(** [Changes[K]]. *)
Fixpoint index_changes (Changes : changes) (K : string) : option change :=
  match Changes with
  | [] => None
  | (name, c) :: rest =>
      if String.eqb name K then Some c else index_changes rest K
  end.

Definition mem (K : string) (Keys : list string) : bool :=
  existsb (String.eqb K) Keys.

(** [OptionalKeys<Changes>]: the keys whose member is an optional schema
    or a function returning one. *)
Definition OptionalKeys (Changes : changes) : list string :=
  List.filter (fun K =>
            match index_changes Changes K with
            | Some (ChangeSchema Sch) => IsZodOptional Sch
            | Some (ChangeFunction R) => IsZodOptional R
            | None => false
            end)
         (keyof_changes Changes).

(** [RequiredKeys<Changes> = Exclude<keyof Changes, OptionalKeys<Changes>>]. *)
Definition RequiredKeys (Changes : changes) : list string :=
  List.filter (fun K => negb (mem K (OptionalKeys Changes))) (keyof_changes Changes).

(** The declared properties a mapped type over [keyof T] ranges over. *)
Definition properties (T : ty) : list (string * (bool * ty)) :=
  match T with
  | TObject props => props
  | TString | TStrLit _ | TArray _ => [required "length" TNumber]
  | TTuple es => [required "length" (TNumLit (Z.of_nat (length es)))]
  | TBufferSource => [required "byteLength" TNumber]
  | _ => []
  end.

(** [Omit<T, Keys>]; the properties kept retain their modifiers. *)
Definition Omit (T : ty) (Keys : list string) : list (string * (bool * ty)) :=
  List.filter (fun p => negb (mem (fst p) Keys)) (properties T).

(** [{ [K in Keys]: InferZodType<Changes[K]> }], with the [?] modifier
    when [opt] is set. *)
Definition mapped_changes (opt : bool) (Keys : list string) (Changes : changes)
  : list (string * (bool * ty)) :=
  map (fun K =>
         (K, (opt, match index_changes Changes K with
                   | Some c => InferZodType c
                   | None => TNever
                   end)))
      Keys.

(** One member of [MergeSchemaChanges]: the intersection of three object
    types with disjoint keys, as one object type. *)
Definition merge_member (T : ty) (Changes : changes) : ty :=
  TObject (Omit T (keyof_changes Changes)
           ++ mapped_changes false (RequiredKeys Changes) Changes
           ++ mapped_changes true (OptionalKeys Changes) Changes).

(** [MergeSchemaChanges<T, Changes>]: [T extends any ? ... : never]
    distributes over the constituents of [T]. *)
Definition MergeSchemaChanges (T : ty) (Changes : changes) : ty :=
  union_of (map (fun member => merge_member member Changes) (constituents T)).

(** The declared property [K] of an object type, with its modifier. *)
Fixpoint property (props : list (string * (bool * ty))) (K : string)
  : option (bool * ty) :=
  match props with
  | [] => None
  | (name, p) :: rest => if String.eqb name K then Some p else property rest K
  end.

(** *** Stores *)

Record IndexInfo : Type := {
  keyPath : pathTy;
  multiEntry : bool;
  unique : bool
}.

Record StoreInfo : Type := {
  value : ty;
  indexes : gmap string IndexInfo;
  schema : zod;
  primaryKeyPath : pathTy;
  autoIncrement : bool
}.

(** A member of the mapped type of [UpdateStore]: a store, or [never]. *)
Inductive entryTy : Type :=
| Store (info : StoreInfo)
| EntryNever.

(** [UpdateStore<S, StoreName, NewStoreInfo>] for a string literal
    [StoreName]: the mapped type over [keyof S | StoreName]. *)
Definition UpdateStore (S : gmap string StoreInfo) (StoreName : string)
  (NewStoreInfo : StoreInfo) : gmap string entryTy :=
  set_to_map
    (fun K : string =>
       (K, if decide (K = StoreName) then Store NewStoreInfo
           else match S !! K with
                | Some info => Store info
                | None => EntryNever
                end))
    (dom S ∪ {[StoreName]}).

End Schema.

(** * Notions used to state the properties *)

Module Notions.
Import GreaterThan Types KeyPath Schema.

(** ** Digit strings as numbers *)

(** The digit a character stands for. *)
Definition digit_val (c : ascii) : Z := Z.of_N (N_of_ascii c) - 48.



Definition len (s : string) : Z := Z.of_nat (String.length s).


(** ** Types and key paths *)

(** The immediate component types of a type, and induction over them. *)
Definition components (t : ty) : list ty :=
  match t with
  | TArray e => [e]
  | TTuple es => es
  | TObject props => map (fun p => snd (snd p)) props
  | TUnion ms => ms
  | _ => []
  end.

(** [P] is the type [never]. *)
Definition is_never (P : pathTy) : bool :=
  match P with
  | PNever => true
  | _ => false
  end.

(** The dot-separated segments of a path. *)
Fixpoint dot_segments (Path : string) : list string :=
  match Path with
  | EmptyString => [EmptyString]
  | String c rest =>
      if Ascii.eqb "." c then EmptyString :: dot_segments rest
      else match dot_segments rest with
           | seg :: segs => String c seg :: segs
           | [] => [String c EmptyString]
           end
  end.


(** Validity of a string key path by its segments: every segment but the
    last must be a property of the type reached so far; the last one must
    be a property whose type is assignable to [IDBValidKey], or be empty
    (the path is empty or ends in a dot) with some constituent of the type
    reached assignable to [IDBValidKey]. *)
Fixpoint valid_segments (T : ty) (segs : list string) : bool :=
  match segs with
  | [] => false
  | seg :: rest =>
      match rest with
      | [] =>
          if String.eqb seg "" then existsb extends_IDBValidKey (constituents T)
          else match lookup_prop T seg with
               | Some T' => extends_IDBValidKey T'
               | None => false
               end
      | _ :: _ =>
          match lookup_prop T seg with
          | Some T' => valid_segments T' rest
          | None => false
          end
      end
  end.

(** The check applied to one element of a literal tuple path: a dotted
    element ["k.nested"] needs [k] to be a property of the value type and
    the nested string path to be valid in the property's type; a plain
    element needs to be a property whose type is assignable to
    [IDBValidKey]. *)
Definition valid_element (T : ty) (element : string) : bool :=
  match Template.split_at_char "." element with
  | Some (K, Nested) =>
      match lookup_prop T K with
      | Some TK => negb (is_never (ValidateStringPath TK Nested))
      | None => false
      end
  | None =>
      match lookup_prop T element with
      | Some TElement => extends_IDBValidKey TElement
      | None => false
      end
  end.



End Notions.

(** * The error types, the derived schemas and the builders *)

(** ** [migration-error.types.ts] *)

Module Errors.
Import Types KeyPath.

(** [StringifyRest<T>]. *)
Fixpoint StringifyRest (T : list string) : string :=
  match T with
  | First :: Rest =>
      String.append ", " (String.append First (StringifyRest Rest))
  | [] => ""
  end.

(** [Stringify<T>] on a key path type: a string literal type, or [never]
    ([None]) for [never], over which the conditional distributes. *)
Definition Stringify (T : pathTy) : option string :=
  match T with
  | PNever => None
  | PStr s => Some s
  | PTuple (First :: Rest) =>
      Some (String.append "[" (String.append First
              (String.append (StringifyRest Rest) "]")))
  | PUndefined => Some "undefined"
  | PTuple [] | PStringArray => Some "unknown"
  end.

(** The branch of [TypeName] one constituent takes.  [BufferSource] is
    [ArrayBufferView | ArrayBuffer], and a view is none of the listed
    types. *)
Definition TypeName_constituent (m : ty) : list string :=
  match m with
  | TString | TStrLit _ => ["string"]
  | TNumber | TNumLit _ => ["number"]
  | TBoolean => ["boolean"]
  | TDate => ["Date"]
  | TBufferSource => ["object"; "ArrayBuffer"]
  | TArray e => if extends_IDBValidKey e then ["Array"] else ["object"]
  | TTuple es =>
      if forallb extends_IDBValidKey es then ["Array"] else ["object"]
  | TUndefined => ["undefined"]
  | TNull => ["null"]
  | _ => ["object"]
  end.

(** [TypeName<T>]: the conditional distributes over [T]; the result is the
    union of the listed string literal types. *)
Definition TypeName (T : ty) : list string :=
  flat_map TypeName_constituent (constituents T).

(** [MigrationError<Kind, Message>]; [Message] is a union of string
    literal types. *)
Record MigrationError : Type := {
  __error : string;
  __message : list string
}.

Definition InvalidKeyPath (Message : list string) : MigrationError :=
  {| __error := "InvalidKeyPath"; __message := Message |}.
Definition InvalidAutoIncrementKey (Message : list string) : MigrationError :=
  {| __error := "InvalidAutoIncrementKey"; __message := Message |}.
Definition InvalidIndexKeyPath (Message : list string) : MigrationError :=
  {| __error := "InvalidIndexKeyPath"; __message := Message |}.
Definition InvalidMultiEntry (Message : list string) : MigrationError :=
  {| __error := "InvalidMultiEntry"; __message := Message |}.

(** The template literal type [`${pre}${X}${post}`] for a union [X]. *)
Definition template (pre : string) (X : list string) (post : string)
  : list string :=
  map (fun x => String.append pre (String.append x post)) X.

Definition of_option (X : option string) : list string :=
  match X with
  | Some x => [x]
  | None => []
  end.

End Errors.

(** ** [migration-builder.types.ts]: store information and derived schemas *)

Module Derived.
Import Types KeyPath Schema.

(** [ExtractStoreInfo<S, StoreName>]; [StoreName] must be a key of [S]. *)
Definition ExtractStoreInfo (S : gmap string StoreInfo) (StoreName : string)
  : option StoreInfo :=
  match S !! StoreName with
  | Some info =>
      Some {| value := value info;
              indexes := indexes info;
              schema := schema info;
              primaryKeyPath := primaryKeyPath info;
              autoIncrement := autoIncrement info |}
  | None => None
  end.

(** The type argument [Updates] of [UpdateStoreInfo]: each property is
    present with a type, or absent. *)
Record updates : Type := {
  updated_value : option ty;
  updated_indexes : option (gmap string IndexInfo);
  updated_schema : option zod;
  updated_primaryKeyPath : option pathTy;
  updated_autoIncrement : option bool
}.

(** [X extends { p: infer V } ? V : Info[p]]. *)
Definition or_info {A} (updated : option A) (info : A) : A :=
  match updated with
  | Some V => V
  | None => info
  end.

(** [UpdateStoreInfo<Info, Updates>]. *)
Definition UpdateStoreInfo (Info : StoreInfo) (Updates : updates) : StoreInfo :=
  {| value := or_info (updated_value Updates) (value Info);
     indexes := or_info (updated_indexes Updates) (indexes Info);
     schema := or_info (updated_schema Updates) (schema Info);
     primaryKeyPath := or_info (updated_primaryKeyPath Updates) (primaryKeyPath Info);
     autoIncrement := or_info (updated_autoIncrement Updates) (autoIncrement Info) |}.

(** [X extends never], on the result of a key path validation. *)
Definition extends_never (X : pathTy) : bool :=
  match X with
  | PNever => true
  | _ => false
  end.

(** [FindInvalidIndexKeyPath<NewValue, Indexes>]: the union of the names
    of the indexes whose key path is not valid in [NewValue]. *)
Definition FindInvalidIndexKeyPath (NewValue : ty)
  (Indexes : gmap string IndexInfo) : gset string :=
  dom (filter (fun entry : string * IndexInfo =>
                 extends_never (ValidateKeyPath NewValue (keyPath entry.2)) = true)
              Indexes).

(** [ExistingIndexes<S, StoreName>]. *)
Definition ExistingIndexes (S : gmap string StoreInfo) (StoreName : string)
  : gset string :=
  match S !! StoreName with
  | Some info => dom (indexes info)
  | None => ∅
  end.

(** [ResolveStoreKeyType<Value, Path, AutoIncrement>]. *)
Definition ResolveStoreKeyType (Value : ty) (Path : pathTy) (AutoIncrement : bool)
  : ty :=
  if AutoIncrement then
    match Path with
    | PUndefined => TNumber
    | _ => ResolveKeyPath Value Path
    end
  else ResolveKeyPath Value Path.

(** [SchemaToIDBSchema<S>]. *)
Definition SchemaToIDBSchema (S : gmap string StoreInfo) : gmap string ty :=
  (fun info =>
     TObject [required "key" (ResolveStoreKeyType (value info)
                                (primaryKeyPath info) (autoIncrement info));
              required "value" (value info)]) <$> S.

(** [ExtractMigrationSchemaValues<S>]. *)
Definition ExtractMigrationSchemaValues (S : gmap string StoreInfo)
  : gmap string ty :=
  value <$> S.

(** [X extends { value: infer V }]: every constituent of [X] is an object
    type with a required property [value], and [V] is the union of their
    types; [never] is assignable with nothing to infer from. *)
Definition value_property (m : ty) : option ty :=
  match m with
  | TObject props =>
      match property props "value" with
      | Some (false, t) => Some t
      | _ => None
      end
  | _ => None
  end.

Fixpoint value_properties (ms : list ty) : option (list ty) :=
  match ms with
  | [] => Some []
  | m :: ms' =>
      match value_property m, value_properties ms' with
      | Some t, Some ts => Some (t :: ts)
      | _, _ => None
      end
  end.

Definition infer_value (X : ty) : option ty :=
  match constituents X with
  | [] => Some TUnknown
  | [m] => value_property m
  | ms => option_map TUnion (value_properties ms)
  end.

(** [ExtractDBSchemaValues<DBSchema>]. *)
Definition ExtractDBSchemaValues (DBSchema : gmap string ty) : gmap string ty :=
  (fun X => match infer_value X with
            | Some V => V
            | None => TNever
            end) <$> DBSchema.

End Derived.

(** ** [migration-builder.ts]: the return types of the builders *)

Module Builder.
Import GreaterThan Version Types KeyPath Schema Errors Derived.

(** The schema a [VersionBuilder] carries after [UpdateStore]: the stores
    of the mapped type. *)
Definition stores (S : gmap string entryTy) : gmap string StoreInfo :=
  omap (fun entry => match entry with
                     | Store info => Some info
                     | EntryNever => None
                     end) S.

(** The return type of a [VersionBuilder] method: a builder over a new
    schema, or one of the error types. *)
Inductive returnTy : Type :=
| VersionBuilder (S : gmap string StoreInfo)
| Error (e : MigrationError).

Definition autoTy_of (AutoIncrement : bool) : autoTy :=
  if AutoIncrement then ATrue else AFalse.

(** [createObjectStore<Name, ZodSchema, PrimaryKey, AutoIncrement>]: its
    return type, or [None] when the parameter type
    [Name & Exclude<Name, keyof S>] is [never] and no call type-checks. *)
Definition createObjectStore (S : gmap string StoreInfo) (Name : string)
  (ZodSchema : zod) (PrimaryKey : pathTy) (AutoIncrement : bool)
  : option returnTy :=
  match S !! Name with
  | Some _ => None
  | None =>
      Some
        (if extends_never (ValidateKeyPath (z_infer ZodSchema) PrimaryKey) then
           Error (InvalidKeyPath
                    (template "Primary key '" (of_option (Stringify PrimaryKey))
                              "' is not a valid path in the schema"))
         else if extends_never
                   (ValidateAutoIncrementKey (z_infer ZodSchema) PrimaryKey
                      (autoTy_of AutoIncrement)) then
           Error (InvalidAutoIncrementKey
                    (flat_map
                       (fun prefix =>
                          template prefix
                            (TypeName (ResolveKeyPath (z_infer ZodSchema) PrimaryKey))
                            "")
                       (template
                          "autoIncrement requires keyPath to resolve to number, but '"
                          (of_option (Stringify PrimaryKey))
                          "' resolves to ")))
         else
           VersionBuilder
             (stores (UpdateStore S Name
                        {| value := z_infer ZodSchema;
                           indexes := ∅;
                           schema := ZodSchema;
                           primaryKeyPath := PrimaryKey;
                           autoIncrement := AutoIncrement |})))
  end.

(** [deleteObjectStore<Name extends keyof S & string>]: [Omit<S, Name>]. *)
Definition deleteObjectStore (S : gmap string StoreInfo) (Name : string)
  : option returnTy :=
  match S !! Name with
  | Some _ => Some (VersionBuilder (delete Name S))
  | None => None
  end.

(** [transformRecords<Name, NewValue>]. *)
Definition transformRecords (S : gmap string StoreInfo) (Name : string)
  (NewValue : ty) : option returnTy :=
  match ExtractStoreInfo S Name with
  | None => None
  | Some Info =>
      let InvalidIndex := FindInvalidIndexKeyPath NewValue (indexes Info) in
      Some
        (if extends_never (ValidateKeyPath NewValue (primaryKeyPath Info)) then
           Error (InvalidKeyPath
                    (template "Transform invalidates primaryKey '"
                       (of_option (Stringify (primaryKeyPath Info)))
                       "': keyPath no longer valid for new value type"))
         else if extends_never
                   (ValidateAutoIncrementKey NewValue (primaryKeyPath Info)
                      (autoTy_of (autoIncrement Info))) then
           Error (InvalidAutoIncrementKey
                    (flat_map
                       (fun prefix =>
                          template prefix
                            (TypeName (ResolveKeyPath NewValue (primaryKeyPath Info)))
                            "")
                       (template
                          "autoIncrement requires keyPath to resolve to number after transform, but '"
                          (of_option (Stringify (primaryKeyPath Info)))
                          "' resolves to ")))
         else if decide (InvalidIndex = ∅) then
           VersionBuilder
             (stores (UpdateStore S Name
                        {| value := NewValue;
                           indexes := indexes Info;
                           schema := schema Info;
                           primaryKeyPath := primaryKeyPath Info;
                           autoIncrement := autoIncrement Info |}))
         else
           Error (InvalidIndexKeyPath
                    (template "Transform invalidates index '"
                       (elements InvalidIndex)
                       "': keyPath no longer valid for new value type")))
  end.

(** [X extends true] on the whole of [X]; [never] is assignable. *)
Definition extends_true (X : boolTy) : bool :=
  match X with
  | BTrue | BNever => true
  | BFalse | BBoolean => false
  end.

(** The schema after an index is added to a store:
    [Info['indexes'] & Record<IndexName, IndexInfo<...>>] for an
    [IndexName] that is not yet a key. *)
Definition with_index (S : gmap string StoreInfo) (StoreName : string)
  (Info : StoreInfo) (IndexName : string) (KeyPath : pathTy)
  (MultiEntry Unique : bool) : gmap string StoreInfo :=
  stores
    (UpdateStore S StoreName
       (UpdateStoreInfo Info
          {| updated_value := None;
             updated_indexes :=
               Some (<[IndexName := {| keyPath := KeyPath;
                                       multiEntry := MultiEntry;
                                       unique := Unique |}]> (indexes Info));
             updated_schema := None;
             updated_primaryKeyPath := None;
             updated_autoIncrement := None |})).

(** [createIndex<StoreName, IndexName, KeyPath, MultiEntry, Unique>]:
    [None] when [StoreName] is not a store, when the index name is taken
    (the parameter type is then [never]) or when [KeyPath] is not a string
    or an array of strings. *)
Definition createIndex (S : gmap string StoreInfo)
  (StoreName IndexName : string) (KeyPath : pathTy) (MultiEntry Unique : bool)
  : option returnTy :=
  match ExtractStoreInfo S StoreName with
  | None => None
  | Some Info =>
      match indexes Info !! IndexName, KeyPath with
      | Some _, _ => None
      | None, PUndefined => None
      | None, _ =>
          Some
            (if extends_never (ValidateKeyPath (value Info) KeyPath) then
               Error (InvalidKeyPath
                        (flat_map
                           (fun prefix => template prefix [StoreName] "'")
                           (template "Index keyPath '"
                              (of_option (Stringify KeyPath))
                              "' is not a valid path in store '")))
             else
               match KeyPath with
               | PStr path =>
                   if extends_true
                        (ValidateMultiEntryIndex (value Info) path MultiEntry)
                   then VersionBuilder
                          (with_index S StoreName Info IndexName KeyPath
                             MultiEntry Unique)
                   else Error (InvalidMultiEntry
                                 (template "multiEntry index '" [IndexName]
                                    "' requires keyPath to point to an array of valid IDB keys"))
               | _ =>
                   if MultiEntry
                   then Error (InvalidMultiEntry
                                 ["multiEntry cannot be used with composite keyPath"])
                   else VersionBuilder
                          (with_index S StoreName Info IndexName KeyPath
                             MultiEntry Unique)
               end)
      end
  end.

(** [deleteIndex<StoreName, IndexName>]: the mapped type drops the key
    [IndexName], which must be an index of the store. *)
Definition deleteIndex (S : gmap string StoreInfo) (StoreName IndexName : string)
  : option returnTy :=
  match ExtractStoreInfo S StoreName with
  | None => None
  | Some Info =>
      match indexes Info !! IndexName with
      | None => None
      | Some _ =>
          Some
            (VersionBuilder
               (stores
                  (UpdateStore S StoreName
                     (UpdateStoreInfo Info
                        {| updated_value := None;
                           updated_indexes :=
                             Some (filter (fun entry : string * IndexInfo =>
                                             entry.1 <> IndexName)
                                          (indexes Info));
                           updated_schema := None;
                           updated_primaryKeyPath := None;
                           updated_autoIncrement := None |}))))
      end
  end.

(** *** [MigrationBuilder] *)

(** The type [MigrationBuilder<S, PrevVersion>]. *)
Record MigrationBuilderTy : Type := {
  builder_schema : gmap string StoreInfo;
  PrevVersion : prevTy
}.

(** [createMigrations()] has type [MigrationBuilder<{}>]. *)
Definition createMigrationsTy : MigrationBuilderTy :=
  {| builder_schema := ∅; PrevVersion := PrevUndefined |}.

(** The type of a call [b.version(v, fn)] for an argument of literal type
    [V] and a callback returning [callback]: the call type-checks when
    [V] is assignable to the parameter type [ValidateVersion<V, PrevVersion>]
    and the callback returns a [VersionBuilder]. *)
Definition versionTy_of (b : MigrationBuilderTy) (V : NumLit)
  (callback : returnTy) : option MigrationBuilderTy :=
  match ValidateVersion (Lit V) (PrevVersion b), callback with
  | VNum _, VersionBuilder NewS =>
      Some {| builder_schema := NewS; PrevVersion := PrevLit V |}
  | _, _ => None
  end.

(** The run-time [Migration] records, for any type of actions. *)
Record Migration (Action : Type) : Type := {
  version : Z;
  actions : list Action
}.
Arguments version {Action} _.
Arguments actions {Action} _.

(** The getter [finalVersion]: [last?.version ?? 0]. *)
Definition finalVersion {Action} (migrations : list (Migration Action)) : Z :=
  match last migrations with
  | Some m => version m
  | None => 0
  end.

(** The method [version] at run time: the migrations of the new builder. *)
Definition version_method {Action} (migrations : list (Migration Action))
  (v : Z) (builder_actions : list Action) : list (Migration Action) :=
  migrations ++ [{| version := v; actions := builder_actions |}].

End Builder.

(** ** Notions for the builders *)

Module Invariants.
Import GreaterThan Version Types KeyPath Schema Errors Derived Builder.

(** A key path that validates in a value type. *)
Definition path_valid (T : ty) (Path : pathTy) : Prop :=
  extends_never (ValidateKeyPath T Path) = false.

(** A store whose primary key path and index key paths validate in its
    value type, and whose primary key passes the auto-increment check. *)
Definition store_valid (info : StoreInfo) : Prop :=
  path_valid (value info) (primaryKeyPath info) /\
  extends_never (ValidateAutoIncrementKey (value info) (primaryKeyPath info)
                   (autoTy_of (autoIncrement info))) = false /\
  map_Forall (fun _ index => path_valid (value info) (keyPath index))
             (indexes info).

Definition schema_valid (S : gmap string StoreInfo) : Prop :=
  map_Forall (fun _ info => store_valid info) S.

(** An array key path: a literal tuple or the widened
    [readonly string[]]. *)
Definition composite (Path : pathTy) : bool :=
  match Path with
  | PTuple _ | PStringArray => true
  | _ => false
  end.

(** The first segment of a string path. *)
Definition first_segment (Path : string) : string :=
  match Template.split_at_char "." Path with
  | Some (First, _) => First
  | None => Path
  end.


(** A call [.version(v, fn)]: the literal [v], the schema of the builder
    the callback returns and the actions that builder has recorded. *)
Record call (Action : Type) : Type := {
  call_version : Z;
  call_schema : gmap string StoreInfo;
  call_actions : list Action
}.
Arguments call_version {Action} _.
Arguments call_schema {Action} _.
Arguments call_actions {Action} _.

(** The type of the builder after a sequence of calls, when every call
    type-checks. *)
Fixpoint version_calls {Action} (b : MigrationBuilderTy)
  (calls : list (call Action)) : option MigrationBuilderTy :=
  match calls with
  | [] => Some b
  | c :: rest =>
      match versionTy_of b (Finite (call_version c))
              (VersionBuilder (call_schema c)) with
      | Some b' => version_calls b' rest
      | None => None
      end
  end.

(** The same calls at run time: the migrations of the last builder. *)
Fixpoint run_version_calls {Action} (migrations : list (Migration Action))
  (calls : list (call Action)) : list (Migration Action) :=
  match calls with
  | [] => migrations
  | c :: rest =>
      run_version_calls
        (version_method migrations (call_version c) (call_actions c)) rest
  end.

End Invariants.

(** ** Sample schemas *)

Module Samples.
Import Types KeyPath Schema.

Definition User : ty :=
  TObject [required "id" TNumber; required "age" TNumber].

(** The store made by
    [createObjectStore('users', User, { primaryKey: 'id' })]. *)
Definition users : StoreInfo :=
  {| value := User;
     indexes := ∅;
     schema := ZodType User;
     primaryKeyPath := PStr "id";
     autoIncrement := false |}.

End Samples.

(** * [remark-code-import.mjs] *)

Module CodeImport.

(** A JavaScript string, as its sequence of UTF-16 code units. *)
Definition jsstring : Type := list N.

(** The code units of a literal written in ASCII. *)
Definition units (s : string) : jsstring :=
  map N_of_ascii (list_ascii_of_string s).

(** The code units that [String.prototype.trim] removes: the white space
    and line terminator code points of ECMAScript. *)
Definition is_space (c : N) : bool :=
  N.eqb c 9 || N.eqb c 10 || N.eqb c 11 || N.eqb c 12 || N.eqb c 13
  || N.eqb c 32 || N.eqb c 160 || N.eqb c 5760
  || (N.leb 8192 c && N.leb c 8202)
  || N.eqb c 8232 || N.eqb c 8233 || N.eqb c 8239 || N.eqb c 8287
  || N.eqb c 12288 || N.eqb c 65279.

Fixpoint trimStart (s : jsstring) : jsstring :=
  match s with
  | c :: rest => if is_space c then trimStart rest else s
  | [] => []
  end.

Definition trimEnd (s : jsstring) : jsstring := rev (trimStart (rev s)).

(** [s.trim()]. *)
Definition trim (s : jsstring) : jsstring := trimEnd (trimStart s).

(** [s.startsWith(prefix)]. *)
Fixpoint startsWith (prefix s : jsstring) : bool :=
  match prefix, s with
  | [], _ => true
  | p :: prefix', c :: s' => N.eqb p c && startsWith prefix' s'
  | _ :: _, [] => false
  end.

(** [s === ''].*)
Definition is_empty (s : jsstring) : bool :=
  match s with
  | [] => true
  | _ :: _ => false
  end.

(** [code.split('\n')]: never the empty array. *)
Fixpoint split (code : jsstring) : list jsstring :=
  match code with
  | [] => [[]]
  | c :: rest =>
      if N.eqb c 10 then [] :: split rest
      else match split rest with
           | line :: lines => (c :: line) :: lines
           | [] => [[c]]
           end
  end.

(** [lines.join('\n')]. *)
Fixpoint join (lines : list jsstring) : jsstring :=
  match lines with
  | [] => []
  | line :: rest =>
      match rest with
      | [] => line
      | _ :: _ => (line ++ 10%N :: join rest)%list
      end
  end.

(** The first test of the loop body, on the trimmed line: an import
    statement or a twoslash directive. *)
Definition is_import (line : jsstring) : bool :=
  startsWith (units "import ") line
  || (startsWith (units "// @") line && negb (startsWith (units "// ---") line)).

(** The second test: the line is neither empty nor a comment. *)
Definition is_code (line : jsstring) : bool :=
  negb (is_empty line) && negb (startsWith (units "//") line).

(** The [for] loop from index [i] on, over the lines from that index:
    the value of [lastImportIndex] when the loop ends or breaks. *)
Fixpoint scan (lines : list jsstring) (i lastImportIndex : Z) : Z :=
  match lines with
  | [] => lastImportIndex
  | l :: rest =>
      let line := trim l in
      if is_import line then scan rest (i + 1) i
      else if is_code line then lastImportIndex
      else scan rest (i + 1) lastImportIndex
  end.

(** The [while] loop: [lines.splice(insertIndex, 1)] as long as the line
    at [insertIndex] exists and is blank.  Each round removes a line, so
    [length lines] rounds are enough. *)
Fixpoint remove_blank (rounds : nat) (lines : list jsstring) (insertIndex : nat)
  : list jsstring :=
  match rounds with
  | O => lines
  | S rounds' =>
      match lines !! insertIndex with
      | Some l =>
          if is_empty (trim l)
          then remove_blank rounds' (delete insertIndex lines) insertIndex
          else lines
      | None => lines
      end
  end.

Definition cut_marker : jsstring := units "// ---cut---".

(** The array [lines] when the function reaches its [return]. *)
Definition cut_lines (lines : list jsstring) : list jsstring :=
  let lastImportIndex := scan lines 0 (-1) in
  if negb (lastImportIndex =? -1) then
    let insertIndex := Z.to_nat (lastImportIndex + 1) in
    let lines' := remove_blank (length lines) lines insertIndex in
    (take insertIndex lines' ++ cut_marker :: drop insertIndex lines')%list
  else lines.

(** [addCutAfterImports(code)]. *)
Definition addCutAfterImports (code : jsstring) : jsstring :=
  trim (join (cut_lines (split code))).

(** *** Notions for the properties *)

(** A line the loop passes over without recording it: blank, or a
    comment that is no directive. *)
Definition passed_over (l : jsstring) : bool :=
  negb (is_import (trim l)) && negb (is_code (trim l)).

(** A line the loop does not stop at. *)
Definition header_line (l : jsstring) : bool :=
  is_import (trim l) || negb (is_code (trim l)).

(** No import statement or directive comes before the first line of
    code. *)
Fixpoint no_header_import (lines : list jsstring) : bool :=
  match lines with
  | [] => true
  | l :: rest =>
      if is_import (trim l) then false
      else if is_code (trim l) then true
      else no_header_import rest
  end.

(** The first line, if there is one, is not blank. *)
Definition starts_non_blank (lines : list jsstring) : bool :=
  match lines with
  | [] => true
  | l :: _ => negb (is_empty (trim l))
  end.

(** The text starts, or ends, with a code unit that [trim] keeps. *)
Definition starts_nonspace (s : jsstring) : bool :=
  match s with
  | c :: _ => negb (is_space c)
  | [] => false
  end.

Definition ends_nonspace (s : jsstring) : bool := starts_nonspace (rev s).

(** The line holds no line feed. *)
Definition no_newline (l : jsstring) : bool :=
  forallb (fun c => negb (N.eqb c 10)) l.

End CodeImport.

(** * Properties *)

(** ** Facts about decimal text and the string comparison *)

Module GreaterThanFacts.
Import GreaterThan Notions.

Lemma len_nonneg s : 0 <= len s.
Proof. unfold len. lia. Qed.

Lemma len_String c s : len (String c s) = len s + 1.
Proof. unfold len. simpl String.length. lia. Qed.

Lemma append_nil_l t : String.append "" t = t.
Proof. reflexivity. Qed.

Lemma append_String c s t :
  String.append (String c s) t = String c (String.append s t).
Proof. reflexivity. Qed.

Lemma len_append s t : len (String.append s t) = len s + len t.
Proof.
  induction s as [|c s IH].
  - rewrite append_nil_l. change (len "") with 0. lia.
  - rewrite append_String, !len_String, IH. lia.
Qed.

Lemma Digit_cases c :
  Digit c = true ->
  exists d, 0 <= d < 10 /\ c = digit_char d.
Proof.
  unfold Digit. simpl. rewrite !orb_true_iff, !Ascii.eqb_eq.
  intros H.
  repeat (destruct H as [H|H]); try discriminate; subst;
    [exists 0|exists 1|exists 2|exists 3|exists 4
    |exists 5|exists 6|exists 7|exists 8|exists 9];
    (split; [lia|reflexivity]).
Qed.

Lemma digit_range d :
  0 <= d < 10 ->
  d = 0 \/ d = 1 \/ d = 2 \/ d = 3 \/ d = 4 \/
  d = 5 \/ d = 6 \/ d = 7 \/ d = 8 \/ d = 9.
Proof. lia. Qed.

Ltac each_digit d H :=
  let E := fresh in
  pose proof (digit_range d H) as E;
  repeat (destruct E as [E|E]); subst d.


Lemma digit_val_digit_char d : 0 <= d < 10 -> digit_val (digit_char d) = d.
Proof. intros H. each_digit d H; reflexivity. Qed.

Lemma digit_char_inj d e :
  0 <= d < 10 -> 0 <= e < 10 -> digit_char d = digit_char e -> d = e.
Proof.
  intros Hd He E. apply (f_equal digit_val) in E.
  rewrite !digit_val_digit_char in E; assumption.
Qed.

Lemma DigitGreaterThan_digit_char d e :
  0 <= d < 10 -> 0 <= e < 10 ->
  DigitGreaterThan (digit_char d) (digit_char e) = (e <? d).
Proof.
  intros Hd He. each_digit d Hd; each_digit e He; reflexivity.
Qed.

(** *** The digit pattern

    [s extends `${string}${B}${string}${A}${string}`] holds exactly when
    the search for [B] and then for [A] in what follows both succeed. *)

Lemma append_assoc s t u :
  String.append (String.append s t) u = String.append s (String.append t u).
Proof.
  induction s as [|c s IH]; [reflexivity|].
  rewrite !append_String, IH. reflexivity.
Qed.

Lemma after_char_Some c s rest :
  Template.after_char c s = Some rest ->
  exists before, s = String.append before (String c rest).
Proof.
  induction s as [|c' s IH]; [discriminate|].
  cbn [Template.after_char].
  destruct (Ascii.eqb_spec c c') as [<-|_].
  - intros [= <-]. exists EmptyString. reflexivity.
  - intros H. destruct (IH H) as [before ->].
    exists (String c' before). reflexivity.
Qed.

Lemma after_char_append c before rest :
  exists skipped,
    Template.after_char c (String.append before (String c rest))
    = Some (String.append skipped rest).
Proof.
  induction before as [|c' before IH].
  - exists EmptyString. rewrite append_nil_l. cbn [Template.after_char].
    rewrite Ascii.eqb_refl. reflexivity.
  - rewrite append_String. cbn [Template.after_char].
    destruct (Ascii.eqb c c').
    + exists (String.append before (String c EmptyString)).
      rewrite append_assoc. reflexivity.
    + exact IH.
Qed.

Lemma pattern_B_then_A (s : string) (A B : ascii) :
  (exists s1 s2 s3,
      s = String.append s1 (String B (String.append s2 (String A s3)))) <->
  (exists rest rest',
      Template.after_char B s = Some rest /\
      Template.after_char A rest = Some rest').
Proof.
  split.
  - intros (s1 & s2 & s3 & ->).
    destruct (after_char_append B s1 (String.append s2 (String A s3)))
      as [skipped ->].
    rewrite <- append_assoc.
    destruct (after_char_append A (String.append skipped s2) s3) as [skipped' E].
    eauto.
  - intros (rest & rest' & HB & HA).
    apply after_char_Some in HB as [s1 ->].
    apply after_char_Some in HA as [s2 ->].
    eauto.
Qed.

Lemma DigitGreaterThan_pattern (A B : ascii) :
  DigitGreaterThan A B = true <->
  A <> B /\
  exists s1 s2 s3,
    DigitString = String.append s1 (String B (String.append s2 (String A s3))).
Proof.
  rewrite pattern_B_then_A. unfold DigitGreaterThan.
  destruct (Ascii.eqb_spec A B) as [->|Hne].
  - split; [discriminate|]. intros [H _]. contradiction.
  - destruct (Template.after_char B DigitString) as [rest|] eqn:HB.
    + destruct (Template.after_char A rest) as [rest'|] eqn:HA.
      * split; [|reflexivity]. intros _. split; [exact Hne|]. eauto.
      * split; [discriminate|].
        intros (_ & r & r' & Hr & Hr'). injection Hr as <-.
        rewrite Hr' in HA. discriminate HA.
    + split; [discriminate|]. intros (_ & r & r' & Hr & _). discriminate Hr.
Qed.

(** *** Digit strings as numbers *)





(** *** The decimal expansion *)

Lemma decimal_fuel_len f m : 1 <= len (decimal_fuel f m).
Proof.
  destruct f as [|f]; simpl.
  - rewrite len_String. pose proof (len_nonneg ""). lia.
  - destruct (m <? 10).
    + rewrite len_String. pose proof (len_nonneg ""). lia.
    + rewrite len_append, len_String.
      pose proof (len_nonneg (decimal_fuel f (m / 10))).
      pose proof (len_nonneg ""). lia.
Qed.



Lemma decimal_len_pos m : 1 <= len (decimal m).
Proof. apply decimal_fuel_len. Qed.


(** *** The string comparison on digit strings *)

Lemma IsLonger_spec A B : IsLonger A B = (len B <? len A).
Proof.
  revert B. induction A as [|a A IH]; intros [|b B]; simpl.
  - reflexivity.
  - rewrite len_String. change (len "") with 0.
    pose proof (len_nonneg B). symmetry. apply Z.ltb_ge. lia.
  - rewrite len_String. change (len "") with 0.
    pose proof (len_nonneg A). symmetry. apply Z.ltb_lt. lia.
  - rewrite IH, !len_String.
    destruct (Z.ltb_spec (len B) (len A)), (Z.ltb_spec (len B + 1) (len A + 1));
      reflexivity || lia.
Qed.



(** *** Integers printed in plain decimal *)





Lemma IsGreaterThan_literals a b :
  IsGreaterThan (Lit a) (Lit b) = CompareFinite a b.
Proof. reflexivity. Qed.

(** [number], the type of [Infinity], is decided before the last branch:
    it is above every literal and not above itself. *)
Lemma IsGreaterThan_number_l B :
  IsGreaterThan number B = match B with number => false | Lit _ => true end.
Proof. destruct B; reflexivity. Qed.

Lemma IsGreaterThan_number_r A : IsGreaterThan A number = false.
Proof. destruct A; reflexivity. Qed.


(** *** Order properties on arbitrary text *)

Lemma CompareSameLengthPositive_refl s : CompareSameLengthPositive s s = 0.
Proof.
  induction s as [|c s IH]; simpl; [reflexivity|].
  destruct (Digit c); [|reflexivity].
  rewrite Ascii.eqb_refl. exact IH.
Qed.

Lemma PositiveStringGreaterThan_irrefl s :
  PositiveStringGreaterThan s s = false.
Proof.
  unfold PositiveStringGreaterThan.
  rewrite IsLonger_spec, Z.ltb_irrefl, CompareSameLengthPositive_refl.
  reflexivity.
Qed.

Lemma CompareSameLengthPositive_trans A B C :
  CompareSameLengthPositive A B = 1 ->
  CompareSameLengthPositive B C = 1 ->
  CompareSameLengthPositive A C = 1.
Proof.
  revert B C. induction A as [|a A IH]; intros B C H1 H2.
  - discriminate H1.
  - destruct B as [|b B]; [simpl in H1; destruct (Digit a); discriminate|].
    destruct C as [|c C]; [simpl in H2; destruct (Digit b); discriminate|].
    simpl in H1, H2 |- *.
    destruct (Digit a) eqn:Ha; [|discriminate].
    destruct (Digit b) eqn:Hb; [|discriminate].
    destruct (Digit c) eqn:Hc; [|discriminate].
    destruct (Digit_cases _ Ha) as (x & Hx & ->).
    destruct (Digit_cases _ Hb) as (y & Hy & ->).
    destruct (Digit_cases _ Hc) as (z & Hz & ->).
    rewrite !DigitGreaterThan_digit_char in * by assumption.
    destruct (Ascii.eqb_spec (digit_char x) (digit_char y)) as [Exy|Exy];
      destruct (Ascii.eqb_spec (digit_char y) (digit_char z)) as [Eyz|Eyz];
      destruct (Ascii.eqb_spec (digit_char x) (digit_char z)) as [Exz|Exz];
      try (apply digit_char_inj in Exy; [|assumption..]);
      try (apply digit_char_inj in Eyz; [|assumption..]);
      try (apply digit_char_inj in Exz; [|assumption..]);
      subst; try congruence;
      try exact (IH _ _ H1 H2);
      repeat match goal with
             | H : context [?p <? ?q] |- _ => destruct (Z.ltb_spec p q)
             | |- context [?p <? ?q] => destruct (Z.ltb_spec p q)
             end;
      try discriminate; try reflexivity; try lia; try congruence.
Qed.

Lemma PositiveStringGreaterThan_true A B :
  PositiveStringGreaterThan A B = true <->
  len B < len A \/ (len A = len B /\ CompareSameLengthPositive A B = 1).
Proof.
  unfold PositiveStringGreaterThan. rewrite !IsLonger_spec.
  destruct (Z.ltb_spec (len B) (len A)), (Z.ltb_spec (len A) (len B));
    try (split; [intros _; left; lia | reflexivity]).
  - split; [discriminate|]. intros [?|[? _]]; lia.
  - destruct (Z.eqb_spec (CompareSameLengthPositive A B) 1) as [E|E].
    + split; [|reflexivity]. intros _. right. split; [lia|assumption].
    + split; [discriminate|]. intros [?|[_ ?]]; [lia|contradiction].
Qed.

Lemma PositiveStringGreaterThan_trans A B C :
  PositiveStringGreaterThan A B = true ->
  PositiveStringGreaterThan B C = true ->
  PositiveStringGreaterThan A C = true.
Proof.
  rewrite !PositiveStringGreaterThan_true.
  intros [H1|[H1 E1]] [H2|[H2 E2]]; try (left; lia).
  right. split; [lia|]. eapply CompareSameLengthPositive_trans; eassumption.
Qed.

Lemma CompareFinite_irrefl a : CompareFinite a a = false.
Proof.
  unfold CompareFinite.
  destruct (IsNegative a); apply PositiveStringGreaterThan_irrefl.
Qed.

Lemma CompareFinite_trans a b c :
  CompareFinite a b = true -> CompareFinite b c = true ->
  CompareFinite a c = true.
Proof.
  unfold CompareFinite.
  destruct (IsNegative a), (IsNegative b), (IsNegative c);
    try discriminate; try reflexivity; intros H1 H2.
  - eapply PositiveStringGreaterThan_trans; eassumption.
  - eapply PositiveStringGreaterThan_trans; eassumption.
Qed.

Lemma assignable_literals a b :
  assignable (ONum (Lit a)) (ONum (Lit b)) = true <-> a = b.
Proof. simpl. apply NumLit_eqb_eq. Qed.

End GreaterThanFacts.

(** ** Numeric comparison *)

Module GreaterThanSpec.
Import GreaterThan Version Notions GreaterThanFacts.

(** The cases of [greater-than.type-test.ts]. *)
Example testGreaterThanPositiveIntegers :
  IsGreaterThan #5 #3 = true /\ IsGreaterThan #3 #5 = false /\
  IsGreaterThan #5 #5 = false /\ IsGreaterThan #0 #0 = false /\
  IsGreaterThan #1 #0 = true /\ IsGreaterThan #0 #1 = false.
Proof. repeat split; reflexivity. Qed.

Example testGreaterThanDifferentDigitLengths :
  IsGreaterThan #100 #99 = true /\ IsGreaterThan #99 #100 = false /\
  IsGreaterThan #1000000 #999999 = true /\
  IsGreaterThan #999999 #1000000 = false.
Proof. repeat split; reflexivity. Qed.

Example testGreaterThanNegativeIntegers :
  IsGreaterThan #(-3) #(-5) = true /\ IsGreaterThan #(-5) #(-3) = false /\
  IsGreaterThan #(-5) #(-5) = false /\ IsGreaterThan #(-1) #(-100) = true /\
  IsGreaterThan #(-100) #(-1) = false.
Proof. repeat split; reflexivity. Qed.

Example testGreaterThanMixedSigns :
  IsGreaterThan #5 #(-3) = true /\ IsGreaterThan #(-3) #5 = false /\
  IsGreaterThan #0 #(-1) = true /\ IsGreaterThan #(-1) #0 = false.
Proof. repeat split; reflexivity. Qed.

(** [PosInf] is [typeof Infinity], that is [number]; [NegInf] is the
    literal [-1e999]. *)
Example testGreaterThanInfinity :
  IsGreaterThan number #999999 = true /\
  IsGreaterThan #999999 number = false /\
  IsGreaterThan number number = false /\
  IsGreaterThan (Lit NegInfinity) #(-999999) = false /\
  IsGreaterThan #(-999999) (Lit NegInfinity) = true /\
  IsGreaterThan (Lit NegInfinity) (Lit NegInfinity) = false /\
  IsGreaterThan number (Lit NegInfinity) = true /\
  IsGreaterThan (Lit NegInfinity) number = false.
Proof. repeat split; reflexivity. Qed.

Example testDerivedRelations :
  LessThan #3 #5 = true /\ LessThan #5 #5 = false /\
  GreaterThanOrEqual #5 #5 = true /\ GreaterThanOrEqual #3 #5 = false /\
  LessThanOrEqual #5 #5 = true /\ LessThanOrEqual #5 #3 = false.
Proof. repeat split; reflexivity. Qed.

(** The samples of the documentation ([database-versions.mdx]). *)
Example same_version_twice :
  ValidateVersion #1 (PrevLit (Finite 1)) = VStr "integer greater than 1".
Proof. reflexivity. Qed.

Example broad_version_number :
  ValidateVersion number (PrevLit (Finite 1)) = VStr broad_number_message.
Proof. reflexivity. Qed.

Example monotonically_increasing :
  ValidateVersion #1 PrevUndefined = VNum #1 /\
  ValidateVersion #2 (PrevLit (Finite 1)) = VNum #2 /\
  ValidateVersion #3 (PrevLit (Finite 2)) = VNum #3.
Proof. repeat split; reflexivity. Qed.

Example skipping_numbers :
  ValidateVersion #5 (PrevLit (Finite 1)) = VNum #5.
Proof. reflexivity. Qed.



(** The four sign cases and the two stages of the comparison of
    non-negative digit strings, as the source lays them out. *)
Lemma CompareFinite_by_cases (a b : NumLit) :
  CompareFinite a b =
    if IsNegative a then
      if IsNegative b
      then PositiveStringGreaterThan (AbsoluteString b) (AbsoluteString a)
      else false
    else
      if IsNegative b then true
      else PositiveStringGreaterThan (AbsoluteString a) (AbsoluteString b).
Proof. unfold CompareFinite. destruct (IsNegative a), (IsNegative b); reflexivity. Qed.


(** C1 (failing input).  The literal [1e21] is a finite integer, its
    template text is ["1e+21"], five characters long, and
    [IsGreaterThan<1e21, 999999>] is [false] although
    [10^21 > 999999]: the six-character text ["999999"] is the longer
    one. *)
Theorem IsGreaterThan_exponent_text_misordered :
  NumberToString (Finite (10 ^ 21)) = "1e+21" /\
  IsGreaterThan #(10 ^ 21) #999999 = false /\
  (999999 <? 10 ^ 21) = true.
Proof. repeat split; vm_compute; reflexivity. Qed.



Lemma ValidateVersion_broad_number (P : prevTy) :
  ValidateVersion number P = VStr broad_number_message.
Proof. reflexivity. Qed.

Lemma ValidateVersion_first (v : NumLit) :
  ValidateVersion (Lit v) PrevUndefined = VNum (Lit v).
Proof. reflexivity. Qed.

(** A repeated version number is always rejected. *)
Lemma ValidateVersion_repeated (v : NumLit) :
  ValidateVersion (Lit v) (PrevLit v) =
    VStr (String.append "integer greater than " (NumberToString v)).
Proof.
  unfold ValidateVersion. change (assignable (ONum number) (ONum (Lit v))) with false.
  cbv iota. rewrite IsGreaterThan_literals, CompareFinite_irrefl. reflexivity.
Qed.

(** C2 (failing input).  [ValidateVersion<1e21, 999999>] is the error
    text ['integer greater than 999999'], although [1e21] is a numeric
    literal strictly greater than [999999]. *)
Theorem ValidateVersion_exponent_text_rejected :
  ValidateVersion #(10 ^ 21) (PrevLit (Finite 999999))
    = VStr "integer greater than 999999" /\
  (999999 <? 10 ^ 21) = true.
Proof. split; vm_compute; reflexivity. Qed.

(** C9.  On number literals [IsGreaterThan] is irreflexive and
    transitive, [LessThan<A, B>] is [IsGreaterThan<B, A>], and
    [GreaterThanOrEqual<A, B>] (resp. [LessThanOrEqual<A, B>]) is [true]
    exactly when [A] and [B] are the same literal or
    [IsGreaterThan<A, B>] (resp. [LessThan<A, B>]) is [true]. *)
Theorem comparison_family_strict_order :
  (forall a : NumLit, IsGreaterThan (Lit a) (Lit a) = false) /\
  (forall a b c : NumLit,
      IsGreaterThan (Lit a) (Lit b) && IsGreaterThan (Lit b) (Lit c)
      && negb (IsGreaterThan (Lit a) (Lit c)) = false) /\
  (forall a b : NumLit,
      LessThan (Lit a) (Lit b) = IsGreaterThan (Lit b) (Lit a)) /\
  (forall a b : NumLit,
      GreaterThanOrEqual (Lit a) (Lit b) = true <->
      a = b \/ IsGreaterThan (Lit a) (Lit b) = true) /\
  (forall a b : NumLit,
      LessThanOrEqual (Lit a) (Lit b) = true <->
      a = b \/ LessThan (Lit a) (Lit b) = true).
Proof.
  split; [|split; [|split; [|split]]].
  - intros a. rewrite IsGreaterThan_literals. apply CompareFinite_irrefl.
  - intros a b c. rewrite !IsGreaterThan_literals.
    destruct (CompareFinite a b) eqn:Hab; [|reflexivity].
    destruct (CompareFinite b c) eqn:Hbc; [|reflexivity].
    rewrite (CompareFinite_trans _ _ _ Hab Hbc). reflexivity.
  - reflexivity.
  - intros a b. unfold GreaterThanOrEqual.
    destruct (assignable (ONum (Lit a)) (ONum (Lit b))) eqn:E.
    + apply assignable_literals in E. tauto.
    + split; [auto|]. intros [->|H]; [|exact H].
      rewrite (proj2 (assignable_literals b b) eq_refl) in E. discriminate E.
  - intros a b. unfold LessThanOrEqual.
    destruct (assignable (ONum (Lit a)) (ONum (Lit b))) eqn:E.
    + apply assignable_literals in E. tauto.
    + split; [auto|]. intros [->|H]; [|exact H].
      rewrite (proj2 (assignable_literals b b) eq_refl) in E. discriminate E.
Qed.

End GreaterThanSpec.

(** ** Key paths *)

Module KeyPathFacts.
Import Types KeyPath Notions.

Fixpoint ty_components_ind (P : ty -> Prop)
  (step : forall t, Forall P (components t) -> P t) (t : ty) {struct t} : P t.
Proof.
  apply step.
  destruct t as [| | | | | |n| |s| | | |e|es|props|ms]; simpl;
    try solve [constructor].
  - constructor; [apply ty_components_ind; assumption|constructor].
  - induction es as [|e es IH]; constructor.
    + apply ty_components_ind; assumption.
    + exact IH.
  - induction props as [|[name [opt t]] ps IH]; constructor.
    + apply ty_components_ind; assumption.
    + exact IH.
  - induction ms as [|m ms IH]; constructor.
    + apply ty_components_ind; assumption.
    + exact IH.
Qed.

(** A type is assignable to [IDBValidKey] exactly when each of its
    constituents is. *)
Lemma extends_IDBValidKey_constituents t :
  forallb extends_IDBValidKey (constituents t) = extends_IDBValidKey t.
Proof.
  induction t as [t IH] using ty_components_ind.
  destruct t as [| | | | | |n| |s| | | |e|es|props|ms]; try reflexivity.
  - simpl. rewrite andb_true_r. reflexivity.
  - simpl. rewrite andb_true_r. reflexivity.
  - simpl in IH |- *.
  induction ms as [|m ms IHms]; [reflexivity|].
  inversion IH as [|? ? Hm Hms]; subst.
  simpl. rewrite forallb_app, Hm, IHms by assumption. reflexivity.
Qed.

Lemma ValidateStringPath_unfold T Path :
  ValidateStringPath T Path =
    if String.eqb Path "" then distribute_IDBValidKey T (PStr Path)
    else match Template.split_at_char "." Path with
         | Some (First, Rest) =>
             match lookup_prop T First with
             | Some TFirst =>
                 unless_never (ValidateStringPath TFirst Rest) (PStr Path)
             | None => PNever
             end
         | None =>
             match lookup_prop T Path with
             | Some TPath =>
                 if extends_IDBValidKey TPath then PStr Path else PNever
             | None => PNever
             end
         end.
Proof.
  funelim (ValidateStringPath T Path); clear Heqcall;
    repeat match goal with
           | H : ValidateStringPath _ _ = _ |- _ => clear H
           end;
    repeat match goal with
           | H : ?l = _ |- context [?l] => rewrite H
           end; reflexivity.
Qed.

Lemma ResolveSingleKeyPath_unfold T Path :
  ResolveSingleKeyPath T Path =
    match Template.split_at_char "." Path with
    | Some (First, Rest) =>
        match lookup_prop T First with
        | Some TFirst => ResolveSingleKeyPath TFirst Rest
        | None => TNever
        end
    | None =>
        match lookup_prop T Path with
        | Some TPath => TPath
        | None => TNever
        end
    end.
Proof.
  funelim (ResolveSingleKeyPath T Path); try clear Heqcall;
    repeat match goal with
           | H : ResolveSingleKeyPath _ _ = _ |- _ => clear H
           end;
    repeat match goal with
           | H : ?l = _ |- context [?l] => rewrite H
           end; reflexivity.
Qed.

(** The result of a string-path validation is the path or [never]. *)
Lemma ValidateStringPath_result T Path :
  ValidateStringPath T Path = PStr Path \/ ValidateStringPath T Path = PNever.
Proof.
  rewrite ValidateStringPath_unfold.
  destruct (String.eqb Path "").
  - unfold distribute_IDBValidKey.
    destruct (existsb _ _); auto.
  - destruct (Template.split_at_char "." Path) as [[First Rest]|].
    + destruct (lookup_prop T First) as [TFirst|]; [|auto].
      destruct (ValidateStringPath TFirst Rest); simpl; auto.
    + destruct (lookup_prop T Path) as [TPath|]; [|auto].
      destruct (extends_IDBValidKey TPath); auto.
Qed.

End KeyPathFacts.

Module KeyPathSpec.
Import Types KeyPath Notions KeyPathFacts.

(** *** [ValidateKeyPath] on string paths *)

Lemma ValidateKeyPath_undefined T : ValidateKeyPath T PUndefined = PUndefined.
Proof. reflexivity. Qed.

Lemma ValidateKeyPath_string_result T P :
  ValidateKeyPath T (PStr P) = PStr P \/ ValidateKeyPath T (PStr P) = PNever.
Proof. apply ValidateStringPath_result. Qed.

(** The empty path is accepted when some constituent of [T] is a valid
    key: the check on [T] distributes. *)
Lemma ValidateKeyPath_empty T :
  ValidateKeyPath T (PStr "") = PStr "" <->
  existsb extends_IDBValidKey (constituents T) = true.
Proof.
  simpl. rewrite ValidateStringPath_unfold. simpl.
  unfold distribute_IDBValidKey.
  destruct (existsb _ _); split; congruence.
Qed.

(** For a type that is not a union this is the assignability of [T]. *)
Lemma ValidateKeyPath_empty_not_union T :
  constituents T = [T] ->
  (ValidateKeyPath T (PStr "") = PStr "" <-> extends_IDBValidKey T = true).
Proof.
  intros H. rewrite ValidateKeyPath_empty, H. simpl.
  rewrite orb_false_r. tauto.
Qed.

Lemma ValidateKeyPath_single_segment T P :
  P <> "" -> Template.split_at_char "." P = None ->
  (ValidateKeyPath T (PStr P) = PStr P <->
   exists TP, lookup_prop T P = Some TP /\ extends_IDBValidKey TP = true).
Proof.
  intros Hne Hsplit. simpl. rewrite ValidateStringPath_unfold, Hsplit.
  destruct (String.eqb_spec P "") as [E|_]; [contradiction|].
  destruct (lookup_prop T P) as [TP|].
  - destruct (extends_IDBValidKey TP) eqn:E.
    + split; [eauto|reflexivity].
    + split; [discriminate|]. intros (TP' & [= <-] & H). congruence.
  - split; [discriminate|]. intros (TP' & [=] & _).
Qed.

Lemma ValidateKeyPath_dotted T P First Rest :
  Template.split_at_char "." P = Some (First, Rest) ->
  (ValidateKeyPath T (PStr P) = PStr P <->
   exists TFirst, lookup_prop T First = Some TFirst /\
                  ValidateKeyPath TFirst (PStr Rest) = PStr Rest).
Proof.
  intros Hsplit. simpl. rewrite (ValidateStringPath_unfold T P), Hsplit.
  destruct (String.eqb_spec P "") as [->|_]; [discriminate Hsplit|].
  destruct (lookup_prop T First) as [TFirst|].
  - destruct (ValidateStringPath_result TFirst Rest) as [E|E]; rewrite E.
    + split; [eauto|reflexivity].
    + split; [discriminate|]. intros (T' & [= <-] & H). congruence.
  - split; [discriminate|]. intros (T' & [=] & _).
Qed.

Example ValidateKeyPath_samples :
  let Address := TObject [required "city" TString; required "geo" (TObject [])] in
  let User := TObject [required "id" TString; optional "nick" TString;
                       required "address" Address] in
  ValidateKeyPath User (PStr "id") = PStr "id" /\
  ValidateKeyPath User (PStr "address.city") = PStr "address.city" /\
  ValidateKeyPath User (PStr "address.geo") = PNever /\
  ValidateKeyPath User (PStr "nick") = PNever /\
  ValidateKeyPath User (PStr "age") = PNever /\
  ValidateKeyPath User (PStr "") = PNever /\
  ValidateKeyPath TString (PStr "") = PStr "".
Proof. repeat split; reflexivity. Qed.

(** C3 (failing input).  For [T = string | undefined] the empty path is
    returned as valid, although [T] is not assignable to [IDBValidKey];
    the same type behind a property is rejected. *)
Theorem ValidateKeyPath_empty_path_accepts_partial_union :
  let T := TUnion [TString; TUndefined] in
  extends_IDBValidKey T = false /\
  ValidateKeyPath T (PStr "") = PStr "" /\
  ValidateKeyPath (TObject [required "key" T]) (PStr "key") = PNever.
Proof. repeat split; reflexivity. Qed.

(** *** [ValidateAutoIncrementKey] *)



Example ValidateAutoIncrementKey_samples :
  let User := TObject [required "id" TString; required "name" TString] in
  let Order := TObject [required "customerId" TNumber; required "orderId" TNumber] in
  ValidateAutoIncrementKey User (PStr "id") ATrue = PNever /\
  ValidateAutoIncrementKey Order (PStr "orderId") ATrue = PStr "orderId" /\
  ValidateAutoIncrementKey Order (PTuple ["customerId"; "orderId"]) ATrue = PNever /\
  ValidateAutoIncrementKey Order (PTuple ["customerId"; "orderId"]) AFalse
    = PTuple ["customerId"; "orderId"].
Proof. repeat split; reflexivity. Qed.

(** *** [ValidateMultiEntryIndex] *)

Lemma ValidateMultiEntryIndex_not_multiEntry Value KeyPath :
  ValidateMultiEntryIndex Value KeyPath false = BTrue.
Proof. reflexivity. Qed.

Lemma ValidateMultiEntryIndex_not_array Value KeyPath :
  infer_array_element (ResolveKeyPath Value (PStr KeyPath)) = None ->
  ValidateMultiEntryIndex Value KeyPath true = BFalse.
Proof. intros H. unfold ValidateMultiEntryIndex. rewrite H. reflexivity. Qed.

Lemma fold_bool_union_true (l : list bool) :
  fold_right bool_union BNever
    (map (fun b : bool => if b then BTrue else BFalse) l) = BTrue <->
  l <> [] /\ forallb id l = true.
Proof.
  induction l as [|b l IH]; simpl.
  - split; [discriminate|]. intros [H _]. contradiction.
  - destruct l as [|b' l].
    + simpl. destruct b; simpl; split; try discriminate; auto.
      intros [_ H]. discriminate H.
    + destruct (fold_right bool_union BNever
                  (map (fun b : bool => if b then BTrue else BFalse) (b' :: l)))
        eqn:E.
      * exfalso. simpl in E. destruct b';
          destruct (fold_right bool_union BNever _); discriminate E.
      * destruct b; simpl.
        -- split; [intros _|reflexivity]. split; [discriminate|].
           apply IH. reflexivity.
        -- split; [discriminate|]. intros [_ H]. discriminate H.
      * destruct b; simpl.
        -- split; [discriminate|]. intros [_ H].
           assert (BFalse = BTrue) as X; [|discriminate X].
           apply IH. split; [discriminate|exact H].
        -- split; [discriminate|]. intros [_ H]. discriminate H.
      * destruct b; simpl.
        -- split; [discriminate|]. intros [_ H].
           assert (BBoolean = BTrue) as X; [|discriminate X].
           apply IH. split; [discriminate|exact H].
        -- split; [discriminate|]. intros [_ H]. discriminate H.
Qed.

(** The element check gives [true] exactly for an element type that is
    not [never] and is assignable to [IDBValidKey]. *)
Lemma distribute_valid_key_true E :
  distribute_valid_key E = BTrue <->
  constituents E <> [] /\ extends_IDBValidKey E = true.
Proof.
  unfold distribute_valid_key.
  rewrite <- extends_IDBValidKey_constituents.
  rewrite <- (map_map extends_IDBValidKey
                (fun b : bool => if b then BTrue else BFalse)).
  rewrite fold_bool_union_true.
  rewrite forallb_forall, forallb_forall.
  split; intros [Hne Hall]; split.
  - intros E0. apply Hne. rewrite E0. reflexivity.
  - intros x Hx. apply (Hall (extends_IDBValidKey x)).
    apply in_map. exact Hx.
  - intros E0. apply Hne. destruct (constituents E); [reflexivity|discriminate E0].
  - intros b Hb. apply in_map_iff in Hb as (x & <- & Hx). apply Hall, Hx.
Qed.

(** X4.  [ValidateMultiEntryIndex] is [true] exactly when [MultiEntry] is
    [false], or the key path resolves to an array whose element type is
    not [never] and is assignable to [IDBValidKey]. *)
Lemma ValidateMultiEntryIndex_true_iff Value KeyPath MultiEntry :
  ValidateMultiEntryIndex Value KeyPath MultiEntry = BTrue <->
  MultiEntry = false \/
  exists E, infer_array_element (ResolveKeyPath Value (PStr KeyPath)) = Some E /\
            constituents E <> [] /\ extends_IDBValidKey E = true.
Proof.
  unfold ValidateMultiEntryIndex. destruct MultiEntry.
  - destruct (infer_array_element _) as [E|].
    + rewrite distribute_valid_key_true. split.
      * intros H. right. exists E. tauto.
      * intros [H|(E' & [= <-] & H)]; [discriminate H|exact H].
    + split; [discriminate|]. intros [H|(E' & [=] & _)]. discriminate H.
  - split; [auto|reflexivity].
Qed.

Example ValidateMultiEntryIndex_samples :
  let Post := TObject [required "title" TString;
                       required "tags" (TArray TString);
                       required "authors" (TArray (TObject [required "name" TString]))] in
  ValidateMultiEntryIndex Post "tags" true = BTrue /\
  ValidateMultiEntryIndex Post "title" true = BFalse /\
  ValidateMultiEntryIndex Post "authors" true = BFalse /\
  ValidateMultiEntryIndex Post "missing" true = BFalse /\
  ValidateMultiEntryIndex Post "title" false = BTrue.
Proof. repeat split; reflexivity. Qed.

(** C5 (failing input).  With [Value = { tags: (string | undefined)[] }]
    the key path ['tags'] resolves to an array whose element type
    [string | undefined] is not assignable to [IDBValidKey], and
    [ValidateMultiEntryIndex<Value, 'tags', true>] is [boolean], not
    [false]. *)
Theorem ValidateMultiEntryIndex_mixed_elements :
  let E := TUnion [TString; TUndefined] in
  let Value := TObject [required "tags" (TArray E)] in
  ResolveKeyPath Value (PStr "tags") = TArray E /\
  extends_IDBValidKey E = false /\
  ValidateMultiEntryIndex Value "tags" true = BBoolean.
Proof. repeat split; reflexivity. Qed.

(** *** [ResolveKeyPath] *)

Lemma dot_segments_split Path :
  dot_segments Path =
    match Template.split_at_char "." Path with
    | Some (First, Rest) => First :: dot_segments Rest
    | None => [Path]
    end.
Proof.
  induction Path as [|c rest IH]; [reflexivity|].
  cbn [dot_segments Template.split_at_char].
  destruct (Ascii.eqb "." c); [reflexivity|].
  rewrite IH. destruct (Template.split_at_char "." rest) as [[f r]|]; reflexivity.
Qed.





(** The example of the source's documentation comment. *)
Example ResolveKeyPath_samples :
  let T := TObject [required "id" TString;
                    required "user" (TObject [required "name" TString])] in
  ResolveKeyPath T (PStr "id") = TString /\
  ResolveKeyPath T (PStr "user.name") = TString /\
  ResolveKeyPath T (PTuple ["id"; "user.name"]) = TTuple [TString; TString] /\
  ResolveKeyPath T PUndefined = TIDBValidKey /\
  ResolveKeyPath T (PStr "user.age") = TNever.
Proof. repeat split; reflexivity. Qed.

(** *** String key paths, segment by segment *)

Lemma dot_segments_nonempty Path : dot_segments Path <> [].
Proof.
  rewrite dot_segments_split.
  destruct (Template.split_at_char "." Path) as [[First Rest]|]; discriminate.
Qed.

Lemma ValidateStringPath_segments :
  forall (n : nat) T Path,
    (String.length Path < n)%nat ->
    ValidateStringPath T Path =
      if valid_segments T (dot_segments Path) then PStr Path else PNever.
Proof.
  induction n as [|n IH]; intros T Path Hlen; [lia|].
  rewrite ValidateStringPath_unfold, dot_segments_split.
  destruct (String.eqb_spec Path "") as [->|Hne].
  - reflexivity.
  - destruct (Template.split_at_char "." Path) as [[First Rest]|] eqn:E.
    + pose proof (dot_segments_nonempty Rest) as Hrest.
      cbn [valid_segments].
      destruct (dot_segments Rest) as [|seg segs] eqn:Es; [contradiction|].
      destruct (lookup_prop T First) as [TFirst|]; [|reflexivity].
      rewrite (IH TFirst Rest), Es.
      2: { apply Template.split_at_char_length in E. lia. }
      destruct (valid_segments TFirst (seg :: segs)); reflexivity.
    + cbn [valid_segments].
      destruct (String.eqb_spec Path "") as [->|_]; [contradiction|].
      destruct (lookup_prop T Path) as [TPath|]; reflexivity.
Qed.

(** X3.  For a string literal path, [ValidateKeyPath<T, P>] is [P] when
    the segments of [P] are valid in [T], and [never] otherwise. *)
Theorem ValidateKeyPath_string_by_segments (T : ty) (P : string) :
  ValidateKeyPath T (PStr P) =
    if valid_segments T (dot_segments P) then PStr P else PNever.
Proof.
  apply (ValidateStringPath_segments (S (String.length P))). lia.
Qed.

(** *** [ValidateKeyPath] on array paths *)

Lemma ValidateArrayPath_tuple_elements T Path :
  ValidateArrayPath_tuple T Path T =
    if forallb (valid_element T) Path then PTuple Path else PNever.
Proof.
  induction Path as [|First Rest IH]; [reflexivity|].
  cbn [ValidateArrayPath_tuple forallb]. unfold valid_element at 1.
  rewrite IH.
  destruct (Template.split_at_char "." First) as [[K Nested]|].
  - destruct (lookup_prop T K) as [TK|]; [|reflexivity].
    destruct (ValidateStringPath TK Nested); simpl; try reflexivity;
      destruct Rest; try reflexivity;
      destruct (forallb (valid_element T) (_ :: _)); reflexivity.
  - destruct (lookup_prop T First) as [TFirst|]; [|reflexivity].
    destruct (extends_IDBValidKey TFirst); simpl; [|reflexivity].
    destruct Rest; try reflexivity.
    destruct (forallb (valid_element T) (_ :: _)); reflexivity.
Qed.


Example ValidateKeyPath_array_samples :
  let Order := TObject [required "userId" TString; required "orderId" TNumber;
                        required "user" (TObject [required "id" TString]);
                        required "paid" TBoolean] in
  ValidateKeyPath Order (PTuple ["userId"; "orderId"]) = PTuple ["userId"; "orderId"] /\
  ValidateKeyPath Order (PTuple ["user.id"; "orderId"]) = PTuple ["user.id"; "orderId"] /\
  ValidateKeyPath Order (PTuple ["userId"; "paid"]) = PNever /\
  ValidateKeyPath Order (PTuple ["userId"; "missing"]) = PNever /\
  ValidateKeyPath Order PStringArray = PStringArray /\
  ValidateKeyPath TBoolean PStringArray = PStringArray /\
  ValidateKeyPath TBoolean (PTuple []) = PTuple [].
Proof. repeat split; reflexivity. Qed.

End KeyPathSpec.

(** ** Schemas *)

Module SchemaSpec.
Import Types KeyPath Schema Notions.

(** *** [MergeSchemaChanges] *)

Lemma mem_In K Keys : mem K Keys = true <-> In K Keys.
Proof.
  unfold mem. rewrite existsb_exists. split.
  - intros (x & Hx & E). apply String.eqb_eq in E. subst. exact Hx.
  - intros H. exists K. split; [exact H|apply String.eqb_refl].
Qed.

Lemma mem_filter K f Keys :
  mem K (List.filter f Keys) = mem K Keys && f K.
Proof.
  apply eq_true_iff_eq. rewrite andb_true_iff, !mem_In, filter_In. tauto.
Qed.

Lemma index_changes_mem Changes K :
  mem K (keyof_changes Changes) = match index_changes Changes K with
                                  | Some _ => true
                                  | None => false
                                  end.
Proof.
  induction Changes as [|[name c] rest IH]; [reflexivity|].
  cbn [keyof_changes map fst index_changes]. unfold mem in *. simpl existsb.
  rewrite (String.eqb_sym K name).
  destruct (String.eqb name K); [reflexivity|]. exact IH.
Qed.

Lemma property_app l1 l2 K :
  property (l1 ++ l2) K = match property l1 K with
                          | Some p => Some p
                          | None => property l2 K
                          end.
Proof.
  induction l1 as [|[name p] l1 IH]; [reflexivity|].
  simpl. destruct (String.eqb name K); [reflexivity|exact IH].
Qed.

Lemma property_Omit T Keys K :
  property (Omit T Keys) K = if mem K Keys then None else property (properties T) K.
Proof.
  unfold Omit. induction (properties T) as [|[name p] ps IH].
  - cbn [List.filter property]. destruct (mem K Keys); reflexivity.
  - cbn [List.filter fst]. destruct (mem name Keys) eqn:En; cbn [negb].
    + rewrite IH. cbn [property].
      destruct (String.eqb_spec name K) as [->|Hne]; [|reflexivity].
      rewrite En. reflexivity.
    + cbn [property].
      destruct (String.eqb_spec name K) as [->|Hne]; [|exact IH].
      rewrite En. reflexivity.
Qed.

Lemma property_mapped_changes opt Keys Changes K :
  property (mapped_changes opt Keys Changes) K =
    if mem K Keys
    then Some (opt, match index_changes Changes K with
                    | Some c => InferZodType c
                    | None => TNever
                    end)
    else None.
Proof.
  unfold mapped_changes, mem. induction Keys as [|k Keys IH]; [reflexivity|].
  simpl. rewrite (String.eqb_sym K k).
  destruct (String.eqb_spec k K) as [->|_]; [reflexivity|exact IH].
Qed.



Example MergeSchemaChanges_sample :
  let Cat := TObject [required "kind" (TStrLit "cat"); required "name" TString;
                      optional "age" TNumber] in
  let Dog := TObject [required "kind" (TStrLit "dog"); required "name" TNumber] in
  MergeSchemaChanges (TUnion [Cat; Dog])
    [("name", ChangeSchema (ZodOptional (ZodType TString)));
     ("owner", ChangeFunction (ZodType TString))]
  = TUnion
      [TObject [required "kind" (TStrLit "cat"); optional "age" TNumber;
                required "owner" TString;
                optional "name" (TUnion [TString; TUndefined])];
       TObject [required "kind" (TStrLit "dog");
                required "owner" TString;
                optional "name" (TUnion [TString; TUndefined])]].
Proof. reflexivity. Qed.

(** *** [UpdateStore] *)

Lemma UpdateStore_lookup (S : gmap string StoreInfo) StoreName NewStoreInfo K :
  UpdateStore S StoreName NewStoreInfo !! K =
    if decide (K = StoreName) then Some (Store NewStoreInfo)
    else Store <$> S !! K.
Proof.
  unfold UpdateStore.
  set (f := fun K : string =>
              (K, if decide (K = StoreName) then Store NewStoreInfo
                  else match S !! K with
                       | Some info => Store info
                       | None => EntryNever
                       end)).
  assert (Hinj : forall y y' : string,
             y ∈ dom S ∪ {[StoreName]} -> y' ∈ dom S ∪ {[StoreName]} ->
             (f y).1 = (f y').1 -> y = y') by (intros y y' _ _ E; exact E).
  apply option_eq. intros x.
  rewrite (lookup_set_to_map (M := gmap string) f _ _ _ Hinj).
  unfold f. split.
  - intros (y & Hy & Hf). injection Hf as Hk Hx. subst y x.
    destruct (decide (K = StoreName)); [reflexivity|].
    assert (HK : K ∈ dom S).
    { apply elem_of_union in Hy as [Hy|Hy]; [exact Hy|].
      apply elem_of_singleton in Hy. contradiction. }
    apply elem_of_dom in HK as [info Hinfo]. rewrite Hinfo. reflexivity.
  - intros H. exists K. split.
    + destruct (decide (K = StoreName)) as [->|Hne]; [set_solver|].
      apply elem_of_union_l, elem_of_dom.
      destruct (S !! K); [eauto|discriminate H].
    + f_equal. destruct (decide (K = StoreName)); [congruence|].
      destruct (S !! K); simpl in H; congruence.
Qed.

(** C8.  The keys of [UpdateStore<S, StoreName, NewStoreInfo>] are the
    keys of [S] and [StoreName]; the member at [StoreName] is
    [NewStoreInfo]; the member at every other key [K] is [S[K]]. *)
Theorem UpdateStore_spec (S : gmap string StoreInfo) (StoreName : string)
    (NewStoreInfo : StoreInfo) :
  dom (UpdateStore S StoreName NewStoreInfo) = dom S ∪ {[StoreName]} /\
  UpdateStore S StoreName NewStoreInfo !! StoreName = Some (Store NewStoreInfo) /\
  (forall K, K <> StoreName ->
             UpdateStore S StoreName NewStoreInfo !! K = Store <$> S !! K) /\
  UpdateStore S StoreName NewStoreInfo = Store <$> <[StoreName := NewStoreInfo]> S.
Proof.
  assert (Heq : UpdateStore S StoreName NewStoreInfo
                = Store <$> <[StoreName := NewStoreInfo]> S).
  { apply map_eq. intros K.
    rewrite UpdateStore_lookup, lookup_fmap, lookup_insert.
    destruct (decide (K = StoreName)) as [->|Hne].
    - rewrite decide_True by reflexivity. reflexivity.
    - rewrite decide_False by congruence. reflexivity. }
  split; [|split; [|split]].
  - rewrite Heq, dom_fmap_L, dom_insert_L. apply (comm_L (∪)).
  - rewrite UpdateStore_lookup, decide_True by reflexivity. reflexivity.
  - intros K Hne. rewrite UpdateStore_lookup, decide_False by assumption.
    reflexivity.
  - exact Heq.
Qed.

End SchemaSpec.

(** ** More on the numeric comparison *)

Module ComparisonExtras.
Import GreaterThan Notions GreaterThanFacts.








End ComparisonExtras.

(** ** Validation and resolution of key paths together *)

Module KeyPathExtras.
Import Types KeyPath Notions Derived Invariants KeyPathFacts GreaterThanFacts.

Lemma tuple_element_empty_key i es : tuple_element "" i es = None.
Proof.
  revert i. induction es as [|e es IH]; intros i; [reflexivity|].
  cbn [tuple_element].
  destruct (String.eqb_spec "" (GreaterThan.decimal i)) as [E|_]; [|apply IH].
  pose proof (decimal_len_pos i) as H. rewrite <- E in H.
  change (len "") with 0 in H. lia.
Qed.

(** No constituent that is a valid key has a property named [""]. *)
Lemma valid_key_constituent_no_empty_key T :
  Forall (fun c => extends_IDBValidKey c = true -> lookup_prop c "" = None)
         (constituents T).
Proof.
  induction T as [T IH] using ty_components_ind.
  destruct T as [| | | | | |n| |s| | | |e|es|props|ms];
    cbn [constituents].
  16: { cbn [components] in IH.
        induction ms as [|m ms IHms]; [constructor|].
        inversion IH as [|? ? Hm Hms]; subst.
        cbn [flat_map]. apply Forall_app. split; [exact Hm|apply IHms, Hms]. }
  14: { constructor; [|constructor]. intros _. cbn [lookup_prop].
        change (String.eqb "" "length") with false. cbv iota.
        apply tuple_element_empty_key. }
  all: repeat constructor; intros H; try discriminate H; reflexivity.
Qed.

(** A key of a union is a key of each member. *)
Lemma lookup_prop_union ms k :
  lookup_prop (TUnion ms) k <> None ->
  Forall (fun m => lookup_prop m k <> None) ms.
Proof.
  induction ms as [|m ms IH]; intros H; [constructor|].
  simpl in H.
  destruct (lookup_prop m k) as [tm|] eqn:Em; [|contradiction].
  constructor; [rewrite Em; discriminate|].
  apply IH. simpl.
  match type of H with
  | context [match ?rest with Some _ => _ | None => _ end] =>
      destruct rest; [discriminate|contradiction]
  end.
Qed.

(** A key of a type is a key of each of its constituents. *)
Lemma lookup_prop_constituents T k :
  lookup_prop T k <> None ->
  Forall (fun c => lookup_prop c k <> None) (constituents T).
Proof.
  induction T as [T IH] using ty_components_ind. intros Ht.
  destruct T as [| | | | | |n| |s| | | |e|es|props|ms];
    cbn [constituents].
  16: { cbn [components] in IH. apply lookup_prop_union in Ht.
        induction ms as [|m ms IHms]; [constructor|].
        inversion IH as [|? ? Hm Hms]; subst.
        inversion Ht as [|? ? Hkm Hkms]; subst.
        cbn [flat_map]. apply Forall_app.
        split; [exact (Hm Hkm)|exact (IHms Hms Hkms)]. }
  all: first [ exfalso; apply Ht; reflexivity
             | constructor; [exact Ht|constructor]
             | constructor ].
Qed.

Lemma accepted_empty_path_no_empty_key T :
  existsb extends_IDBValidKey (constituents T) = true ->
  lookup_prop T "" = None.
Proof.
  intros H. apply existsb_exists in H as (c & Hc & Hvalid).
  destruct (lookup_prop T "") as [t|] eqn:E; [|reflexivity].
  exfalso.
  assert (Hsome : lookup_prop T "" <> None) by (rewrite E; discriminate).
  pose proof (lookup_prop_constituents T "" Hsome) as Hkeys.
  pose proof (valid_key_constituent_no_empty_key T) as Hnone.
  rewrite List.Forall_forall in Hkeys, Hnone.
  apply (Hkeys c Hc). apply (Hnone c Hc Hvalid).
Qed.

(** An accepted string path resolves to a type assignable to
    [IDBValidKey]. *)
Lemma ValidateStringPath_resolves (n : nat) :
  forall T Path,
    (String.length Path < n)%nat ->
    ValidateStringPath T Path <> PNever ->
    extends_IDBValidKey (ResolveSingleKeyPath T Path) = true.
Proof.
  induction n as [|n IH]; intros T Path Hlen Hvalid; [lia|].
  rewrite ValidateStringPath_unfold in Hvalid.
  rewrite ResolveSingleKeyPath_unfold.
  destruct (String.eqb_spec Path "") as [->|Hne].
  - cbn [Template.split_at_char]. unfold distribute_IDBValidKey in Hvalid.
    destruct (existsb extends_IDBValidKey (constituents T)) eqn:E;
      [|contradiction].
    rewrite (accepted_empty_path_no_empty_key T E). reflexivity.
  - destruct (Template.split_at_char "." Path) as [[First Rest]|] eqn:Es.
    + destruct (lookup_prop T First) as [TFirst|]; [|contradiction].
      apply IH.
      * apply Template.split_at_char_length in Es. lia.
      * intros Hnever. rewrite Hnever in Hvalid. contradiction.
    + destruct (lookup_prop T Path) as [TPath|]; [|contradiction].
      destruct (extends_IDBValidKey TPath); [reflexivity|contradiction].
Qed.

Lemma valid_element_resolves T element :
  valid_element T element = true ->
  extends_IDBValidKey (ResolveSingleKeyPath T element) = true.
Proof.
  unfold valid_element. intros H. rewrite ResolveSingleKeyPath_unfold.
  destruct (Template.split_at_char "." element) as [[K Nested]|].
  - destruct (lookup_prop T K) as [TK|]; [|discriminate].
    apply (ValidateStringPath_resolves (S (String.length Nested))); [lia|].
    intros Hnever. rewrite Hnever in H. discriminate.
  - destruct (lookup_prop T element) as [TElement|]; [exact H|discriminate].
Qed.

(** An accepted key path resolves to a type assignable to
    [IDBValidKey]. *)
Lemma path_valid_resolves (T : ty) (Path : pathTy) :
  path_valid T Path ->
  extends_IDBValidKey (ResolveKeyPath T Path) = true.
Proof.
  unfold path_valid. intros H.
  destruct Path as [| |s|ps|]; try reflexivity.
  - cbn [ValidateKeyPath ResolveKeyPath] in *.
    apply (ValidateStringPath_resolves (S (String.length s))); [lia|].
    intros Hnever. rewrite Hnever in H. discriminate.
  - cbn [ValidateKeyPath ValidateArrayPath ResolveKeyPath] in *.
    rewrite KeyPathSpec.ValidateArrayPath_tuple_elements in H.
    destruct (forallb (valid_element T) ps) eqn:E; [|discriminate].
    clear H. cbn [extends_IDBValidKey].
    induction ps as [|p ps IHps]; [reflexivity|].
    cbn [forallb] in E. apply andb_true_iff in E as [Hp Hps].
    cbn [ResolveArrayKeyPath forallb].
    rewrite (valid_element_resolves T p Hp), (IHps Hps). reflexivity.
Qed.

(** X7.  A key path that [ValidateKeyPath] accepts in a value type
    resolves, by [ResolveKeyPath], to a type assignable to [IDBValidKey]:
    [undefined] to [IDBValidKey] itself, a string path to the type it
    leads to, an array path to a tuple of valid keys. *)
Theorem accepted_path_resolves_to_valid_key (T : ty) (Path : pathTy) :
  extends_never (ValidateKeyPath T Path) = false ->
  extends_IDBValidKey (ResolveKeyPath T Path) = true.
Proof. exact (path_valid_resolves T Path). Qed.

Lemma accepted_path_resolves_to_valid_key_witness :
  extends_IDBValidKey
    (ResolveKeyPath
       (TObject [required "id" TString;
                 required "user" (TObject [required "age" TNumber])])
       (PTuple ["id"; "user.age"])) = true.
Proof.
  apply accepted_path_resolves_to_valid_key. reflexivity.
Defined.

(** X8.  Where the empty key path is accepted the value type has no
    property named by the empty string, and [ResolveKeyPath] gives
    [never], not the value type: the key type derived for such a store
    is [never]. *)
Theorem accepted_empty_path_resolves_to_never (T : ty) :
  path_valid T (PStr "") ->
  ResolveKeyPath T (PStr "") = TNever /\
  ResolveStoreKeyType T (PStr "") false = TNever /\
  ResolveStoreKeyType T (PStr "") true = TNever.
Proof.
  unfold path_valid. cbn [ValidateKeyPath]. intros H.
  rewrite ValidateStringPath_unfold in H. cbn [String.eqb] in H.
  unfold distribute_IDBValidKey in H.
  destruct (existsb extends_IDBValidKey (constituents T)) eqn:E;
    [|discriminate].
  assert (Hresolve : ResolveKeyPath T (PStr "") = TNever).
  { cbn [ResolveKeyPath]. rewrite ResolveSingleKeyPath_unfold.
    cbn [Template.split_at_char].
    rewrite (accepted_empty_path_no_empty_key T E). reflexivity. }
  unfold ResolveStoreKeyType. rewrite Hresolve. auto.
Qed.

Lemma accepted_empty_path_resolves_to_never_witness :
  ResolveKeyPath TString (PStr "") = TNever /\
  ResolveStoreKeyType TString (PStr "") false = TNever /\
  ResolveStoreKeyType TString (PStr "") true = TNever.
Proof.
  apply accepted_empty_path_resolves_to_never. reflexivity.
Defined.

End KeyPathExtras.

(** ** The builders *)

Module BuilderExtras.
Import GreaterThan Version Types KeyPath Schema Errors Derived Builder.
Import Invariants Notions GreaterThanFacts.

(** The schema a builder carries after [UpdateStore] is the old one with
    the store replaced or added. *)
Lemma stores_UpdateStore S StoreName NewStoreInfo :
  stores (UpdateStore S StoreName NewStoreInfo) = <[StoreName := NewStoreInfo]> S.
Proof.
  apply map_eq. intros K. unfold stores.
  rewrite lookup_omap, SchemaSpec.UpdateStore_lookup, lookup_insert.
  destruct (decide (K = StoreName)) as [->|Hne].
  - rewrite decide_True by reflexivity. reflexivity.
  - rewrite decide_False by congruence. destruct (S !! K); reflexivity.
Qed.

Lemma ExtractStoreInfo_lookup S StoreName :
  ExtractStoreInfo S StoreName = S !! StoreName.
Proof.
  unfold ExtractStoreInfo. destruct (S !! StoreName) as [[]|]; reflexivity.
Qed.

Lemma extends_never_false P : extends_never P <> true -> extends_never P = false.
Proof. destruct (extends_never P); [contradiction|reflexivity]. Qed.

(** No index name is reported exactly when every index key path is
    valid in the new value type. *)
Lemma FindInvalidIndexKeyPath_empty NewValue Indexes :
  FindInvalidIndexKeyPath NewValue Indexes = ∅ <->
  map_Forall (fun _ index => path_valid NewValue (keyPath index)) Indexes.
Proof.
  unfold FindInvalidIndexKeyPath, path_valid.
  rewrite dom_empty_iff_L, map_empty_filter. unfold map_Forall. cbn [snd].
  split; intros H i x Hix; specialize (H i x Hix).
  - apply extends_never_false, H.
  - rewrite H. discriminate.
Qed.

(** *** The methods of [VersionBuilder] keep every key path valid *)

Lemma createObjectStore_valid S Name ZodSchema PrimaryKey AutoIncrement S' :
  schema_valid S ->
  createObjectStore S Name ZodSchema PrimaryKey AutoIncrement
    = Some (VersionBuilder S') ->
  schema_valid S'.
Proof.
  unfold createObjectStore. intros HS H.
  destruct (S !! Name); [discriminate|].
  destruct (extends_never (ValidateKeyPath _ _)) eqn:E1; [discriminate|].
  destruct (extends_never (ValidateAutoIncrementKey _ _ _)) eqn:E2; [discriminate|].
  injection H as <-. rewrite stores_UpdateStore.
  apply map_Forall_insert_2; [|exact HS].
  repeat split; [exact E1|exact E2|apply map_Forall_empty].
Qed.

Lemma deleteObjectStore_valid S Name S' :
  schema_valid S ->
  deleteObjectStore S Name = Some (VersionBuilder S') ->
  schema_valid S'.
Proof.
  unfold deleteObjectStore. intros HS H.
  destruct (S !! Name); [|discriminate].
  injection H as <-. apply map_Forall_delete, HS.
Qed.

Lemma transformRecords_valid S Name NewValue S' :
  schema_valid S ->
  transformRecords S Name NewValue = Some (VersionBuilder S') ->
  schema_valid S'.
Proof.
  unfold transformRecords. intros HS H.
  destruct (ExtractStoreInfo S Name) as [Info|]; [|discriminate].
  destruct (extends_never (ValidateKeyPath _ _)) eqn:E1; [discriminate|].
  destruct (extends_never (ValidateAutoIncrementKey _ _ _)) eqn:E2; [discriminate|].
  destruct (decide (FindInvalidIndexKeyPath NewValue (indexes Info) = ∅))
    as [E3|]; [|discriminate].
  injection H as <-. rewrite stores_UpdateStore.
  apply map_Forall_insert_2; [|exact HS].
  repeat split; [exact E1|exact E2|].
  apply FindInvalidIndexKeyPath_empty, E3.
Qed.

Lemma with_index_valid S StoreName Info IndexName KeyPath MultiEntry Unique :
  schema_valid S ->
  S !! StoreName = Some Info ->
  path_valid (value Info) KeyPath ->
  schema_valid (with_index S StoreName Info IndexName KeyPath MultiEntry Unique).
Proof.
  intros HS HInfo HPath. unfold with_index. rewrite stores_UpdateStore.
  apply map_Forall_insert_2; [|exact HS].
  destruct (HS _ _ HInfo) as (H1 & H2 & H3).
  repeat split; [exact H1|exact H2|].
  cbn. apply map_Forall_insert_2; [exact HPath|exact H3].
Qed.

Lemma createIndex_valid S StoreName IndexName KeyPath MultiEntry Unique S' :
  schema_valid S ->
  createIndex S StoreName IndexName KeyPath MultiEntry Unique
    = Some (VersionBuilder S') ->
  schema_valid S'.
Proof.
  unfold createIndex. rewrite ExtractStoreInfo_lookup. intros HS H.
  destruct (S !! StoreName) as [Info|] eqn:HInfo; [|discriminate].
  destruct (indexes Info !! IndexName); [discriminate|].
  destruct (extends_never (ValidateKeyPath (value Info) KeyPath)) eqn:E1.
  - destruct KeyPath; discriminate.
  - destruct KeyPath as [| |path|ps|]; try discriminate.
    + destruct (extends_true _); [|discriminate].
      injection H as <-. apply with_index_valid; assumption.
    + destruct MultiEntry; [discriminate|].
      injection H as <-. apply with_index_valid; assumption.
    + destruct MultiEntry; [discriminate|].
      injection H as <-. apply with_index_valid; assumption.
Qed.

Lemma deleteIndex_valid S StoreName IndexName S' :
  schema_valid S ->
  deleteIndex S StoreName IndexName = Some (VersionBuilder S') ->
  schema_valid S'.
Proof.
  unfold deleteIndex. rewrite ExtractStoreInfo_lookup. intros HS H.
  destruct (S !! StoreName) as [Info|] eqn:HInfo; [|discriminate].
  destruct (indexes Info !! IndexName); [|discriminate].
  injection H as <-. rewrite stores_UpdateStore.
  apply map_Forall_insert_2; [|exact HS].
  destruct (HS _ _ HInfo) as (H1 & H2 & H3).
  repeat split; [exact H1|exact H2|].
  cbn. intros index info Hindex.
  apply map_lookup_filter_Some_1_1 in Hindex.
  exact (H3 index info Hindex).
Qed.

(** X9.  In a schema where every store's primary key path and index key
    paths are valid in its value type and its primary key passes the
    auto-increment check, each of [createObjectStore],
    [deleteObjectStore], [transformRecords], [createIndex] and
    [deleteIndex] that returns a builder returns one over a schema with
    the same property. *)
Theorem builder_methods_keep_key_paths_valid (S S' : gmap string StoreInfo) :
  schema_valid S ->
  (exists Name ZodSchema PrimaryKey AutoIncrement,
      createObjectStore S Name ZodSchema PrimaryKey AutoIncrement
        = Some (VersionBuilder S')) \/
  (exists Name, deleteObjectStore S Name = Some (VersionBuilder S')) \/
  (exists Name NewValue,
      transformRecords S Name NewValue = Some (VersionBuilder S')) \/
  (exists StoreName IndexName KeyPath MultiEntry Unique,
      createIndex S StoreName IndexName KeyPath MultiEntry Unique
        = Some (VersionBuilder S')) \/
  (exists StoreName IndexName,
      deleteIndex S StoreName IndexName = Some (VersionBuilder S')) ->
  schema_valid S'.
Proof.
  intros HS [H|[H|[H|[H|H]]]].
  - destruct H as (Name & ZodSchema & PrimaryKey & AutoIncrement & H).
    exact (createObjectStore_valid _ _ _ _ _ _ HS H).
  - destruct H as (Name & H). exact (deleteObjectStore_valid _ _ _ HS H).
  - destruct H as (Name & NewValue & H).
    exact (transformRecords_valid _ _ _ _ HS H).
  - destruct H as (StoreName & IndexName & KeyPath & MultiEntry & Unique & H).
    exact (createIndex_valid _ _ _ _ _ _ _ HS H).
  - destruct H as (StoreName & IndexName & H).
    exact (deleteIndex_valid _ _ _ _ HS H).
Qed.

Lemma builder_methods_keep_key_paths_valid_witness :
  schema_valid
    (<["users" := {| value := TObject [required "id" TNumber];
                     indexes := ∅;
                     schema := ZodType (TObject [required "id" TNumber]);
                     primaryKeyPath := PStr "id";
                     autoIncrement := true |}]> ∅).
Proof.
  apply (builder_methods_keep_key_paths_valid ∅).
  - apply map_Forall_empty.
  - left.
    exists "users", (ZodType (TObject [required "id" TNumber])), (PStr "id"), true.
    unfold createObjectStore. rewrite lookup_empty, stores_UpdateStore.
    reflexivity.
Defined.

(** *** Undoing a step *)

Lemma filter_other_insert (Indexes : gmap string IndexInfo) IndexName index :
  Indexes !! IndexName = None ->
  filter (fun entry : string * IndexInfo => entry.1 <> IndexName)
         (<[IndexName := index]> Indexes) = Indexes.
Proof.
  intros Hfresh. rewrite map_filter_insert_False by (cbn; tauto).
  rewrite delete_id by exact Hfresh.
  apply map_filter_id. intros i x Hix. cbn. congruence.
Qed.

(** X10.  Deleting a store that [createObjectStore] has just created
    gives back the schema the builder had before. *)
Theorem createObjectStore_then_deleteObjectStore
    (S S' : gmap string StoreInfo) Name ZodSchema PrimaryKey AutoIncrement :
  createObjectStore S Name ZodSchema PrimaryKey AutoIncrement
    = Some (VersionBuilder S') ->
  deleteObjectStore S' Name = Some (VersionBuilder S).
Proof.
  unfold createObjectStore. intros H.
  destruct (S !! Name) eqn:HName; [discriminate|].
  destruct (extends_never (ValidateKeyPath _ _)); [discriminate|].
  destruct (extends_never (ValidateAutoIncrementKey _ _ _)); [discriminate|].
  injection H as <-. rewrite stores_UpdateStore.
  unfold deleteObjectStore. rewrite lookup_insert, decide_True by reflexivity.
  rewrite delete_insert_id by exact HName. reflexivity.
Qed.

Lemma createObjectStore_then_deleteObjectStore_witness :
  deleteObjectStore
    (<["users" := {| value := TObject [required "id" TNumber];
                     indexes := ∅;
                     schema := ZodType (TObject [required "id" TNumber]);
                     primaryKeyPath := PStr "id";
                     autoIncrement := true |}]> ∅)
    "users" = Some (VersionBuilder ∅).
Proof.
  apply (createObjectStore_then_deleteObjectStore ∅ _ "users"
           (ZodType (TObject [required "id" TNumber])) (PStr "id") true).
  unfold createObjectStore. rewrite lookup_empty, stores_UpdateStore.
  reflexivity.
Defined.

Lemma with_index_deleteIndex S StoreName Info IndexName KeyPath MultiEntry Unique :
  S !! StoreName = Some Info ->
  indexes Info !! IndexName = None ->
  deleteIndex (with_index S StoreName Info IndexName KeyPath MultiEntry Unique)
    StoreName IndexName = Some (VersionBuilder S).
Proof.
  intros HInfo Hfresh. unfold with_index, deleteIndex.
  rewrite ExtractStoreInfo_lookup, !stores_UpdateStore.
  rewrite lookup_insert, decide_True by reflexivity. cbn.
  rewrite lookup_insert, decide_True by reflexivity.
  rewrite stores_UpdateStore, insert_insert_eq.
  unfold UpdateStoreInfo. cbn.
  rewrite filter_other_insert by exact Hfresh.
  f_equal. f_equal. apply insert_id. rewrite HInfo. f_equal.
  destruct Info; reflexivity.
Qed.

(** X11.  Deleting an index that [createIndex] has just created gives
    back the schema the builder had before. *)
Theorem createIndex_then_deleteIndex (S S' : gmap string StoreInfo)
    StoreName IndexName KeyPath MultiEntry Unique :
  createIndex S StoreName IndexName KeyPath MultiEntry Unique
    = Some (VersionBuilder S') ->
  deleteIndex S' StoreName IndexName = Some (VersionBuilder S).
Proof.
  unfold createIndex. rewrite ExtractStoreInfo_lookup. intros H.
  destruct (S !! StoreName) as [Info|] eqn:HInfo; [|discriminate].
  destruct (indexes Info !! IndexName) eqn:Hfresh; [discriminate|].
  destruct (extends_never (ValidateKeyPath (value Info) KeyPath)) eqn:E1.
  - destruct KeyPath; discriminate.
  - destruct KeyPath as [| |path|ps|]; try discriminate.
    + destruct (extends_true _); [|discriminate].
      injection H as <-. apply with_index_deleteIndex; assumption.
    + destruct MultiEntry; [discriminate|].
      injection H as <-. apply with_index_deleteIndex; assumption.
    + destruct MultiEntry; [discriminate|].
      injection H as <-. apply with_index_deleteIndex; assumption.
Qed.

Lemma createIndex_then_deleteIndex_witness :
  deleteIndex
    (with_index {["users" := Samples.users]} "users" Samples.users
       "by_age" (PStr "age") false false)
    "users" "by_age" = Some (VersionBuilder {["users" := Samples.users]}).
Proof.
  apply (createIndex_then_deleteIndex _ _ "users" "by_age" (PStr "age")
           false false).
  unfold createIndex. rewrite ExtractStoreInfo_lookup, lookup_singleton.
  rewrite decide_True by reflexivity.
  reflexivity.
Defined.

(** *** Chains of [.version] calls *)






Lemma run_version_calls_versions {Action} (migrations : list (Migration Action))
    (calls : list (call Action)) :
  map version (run_version_calls migrations calls)
  = (map version migrations ++ map call_version calls)%list.
Proof.
  revert migrations. induction calls as [|c calls IH]; intros migrations.
  - cbn. rewrite app_nil_r. reflexivity.
  - cbn [run_version_calls map]. rewrite IH. unfold version_method.
    rewrite map_app, <- app_assoc. reflexivity.
Qed.

Lemma finalVersion_last {Action} (migrations : list (Migration Action)) :
  finalVersion migrations
  = match last (map version migrations) with
    | Some v => v
    | None => 0
    end.
Proof.
  unfold finalVersion. change (map version migrations) with (version <$> migrations).
  rewrite fmap_last. destruct (last migrations); reflexivity.
Qed.

Lemma version_calls_last {Action} (b b' : MigrationBuilderTy)
    (calls : list (call Action)) :
  version_calls b calls = Some b' ->
  match last calls with
  | Some c => PrevVersion b' = PrevLit (Finite (call_version c)) /\
              builder_schema b' = call_schema c
  | None => b' = b
  end.
Proof.
  revert b. induction calls as [|c calls IH]; intros b H.
  - cbn in *. congruence.
  - cbn [version_calls] in H.
    destruct (versionTy_of b (Finite (call_version c))
                (VersionBuilder (call_schema c))) as [b1|] eqn:E;
      [|discriminate].
    specialize (IH _ H).
    destruct calls as [|c' calls'].
    + cbn in IH |- *. subst b'. unfold versionTy_of in E.
      destruct (ValidateVersion _ _); [|discriminate].
      injection E as <-. split; reflexivity.
    + rewrite last_cons_cons.
      destruct (last (c' :: calls')) eqn:El; [exact IH|].
      apply last_None in El. discriminate.
Qed.

(** X13.  After a chain of [.version] calls that type-checks, the builder
    holds one migration per call with the versions in call order; the
    getter [finalVersion] returns the version of the last call, which is
    the [PrevVersion] of the builder's type, and the schema of the type is
    the one the last callback returned.  Before any call the type says
    [undefined] where the getter returns [0]. *)
Theorem finalVersion_agrees_with_PrevVersion {Action}
    (calls : list (call Action)) (b : MigrationBuilderTy) :
  version_calls createMigrationsTy calls = Some b ->
  map version (run_version_calls [] calls) = map call_version calls /\
  match last calls with
  | Some c =>
      PrevVersion b = PrevLit (Finite (finalVersion (run_version_calls [] calls)))
      /\ builder_schema b = call_schema c
  | None =>
      PrevVersion b = PrevUndefined /\
      finalVersion (run_version_calls [] calls) = 0
  end.
Proof.
  intros H. split; [rewrite run_version_calls_versions; reflexivity|].
  apply version_calls_last in H.
  rewrite finalVersion_last, run_version_calls_versions. cbn [map app].
  change (map call_version calls) with (call_version <$> calls).
  rewrite fmap_last.
  destruct (last calls) as [c|]; cbn.
  - exact H.
  - subst b. split; reflexivity.
Qed.

Lemma finalVersion_agrees_with_PrevVersion_witness :
  map version
    (run_version_calls []
       [ {| call_version := 1; call_schema := {["users" := Samples.users]};
            call_actions := [tt] |} ])
  = [1] /\
  PrevVersion
    {| builder_schema := {["users" := Samples.users]};
       PrevVersion := PrevLit (Finite 1) |}
  = PrevLit (Finite
      (finalVersion
         (run_version_calls []
            [ {| call_version := 1; call_schema := {["users" := Samples.users]};
                 call_actions := [tt] |} ])))
  /\ builder_schema
       {| builder_schema := {["users" := Samples.users]};
          PrevVersion := PrevLit (Finite 1) |}
     = {["users" := Samples.users]}.
Proof.
  exact (finalVersion_agrees_with_PrevVersion
           [ {| call_version := 1; call_schema := {["users" := Samples.users]};
                call_actions := [tt] |} ]
           {| builder_schema := {["users" := Samples.users]};
              PrevVersion := PrevLit (Finite 1) |}
           eq_refl).
Defined.

End BuilderExtras.

(** ** The derived schemas *)

Module DerivedExtras.
Import Types KeyPath Schema Derived Builder Invariants Notions.

(** X14.  The value types read back from the [idb] schema derived by
    [SchemaToIDBSchema] are the value types of the stores:
    [ExtractDBSchemaValues<SchemaToIDBSchema<S>>] is
    [ExtractMigrationSchemaValues<S>]. *)
Theorem ExtractDBSchemaValues_SchemaToIDBSchema (S : gmap string StoreInfo) :
  ExtractDBSchemaValues (SchemaToIDBSchema S) = ExtractMigrationSchemaValues S.
Proof.
  unfold ExtractDBSchemaValues, SchemaToIDBSchema, ExtractMigrationSchemaValues.
  rewrite <- map_fmap_compose. apply map_fmap_ext. intros K info _.
  reflexivity.
Qed.



End DerivedExtras.

(** ** Key paths after [MergeSchemaChanges] *)

Module SchemaExtras.
Import Types KeyPath Schema Derived Invariants Notions KeyPathFacts.

(** Reading a property of an object type. *)
Lemma lookup_prop_property props K :
  lookup_prop (TObject props) K =
    match property props K with
    | Some (opt, t) => Some (if opt then TUnion [t; TUndefined] else t)
    | None => None
    end.
Proof.
  induction props as [|[name [opt t]] props IH]; [reflexivity|].
  cbn [lookup_prop property] in *.
  destruct (String.eqb name K); [reflexivity|exact IH].
Qed.

Lemma lookup_prop_merge_member props Changes K :
  index_changes Changes K = None ->
  lookup_prop (merge_member (TObject props) Changes) K
  = lookup_prop (TObject props) K.
Proof.
  intros HK. unfold merge_member. rewrite !lookup_prop_property.
  rewrite !SchemaSpec.property_app, SchemaSpec.property_Omit,
    !SchemaSpec.property_mapped_changes.
  unfold RequiredKeys. rewrite SchemaSpec.mem_filter.
  unfold OptionalKeys. rewrite SchemaSpec.mem_filter.
  rewrite !SchemaSpec.index_changes_mem, HK. cbn [properties andb].
  destruct (property props K) as [[opt t]|]; reflexivity.
Qed.

(** X16.  [MergeSchemaChanges] on an object type leaves every string key
    path that starts at a property outside [Changes] as it was: the path
    is accepted after the merge exactly when it was accepted before, and
    resolves to the same type. *)
Theorem MergeSchemaChanges_keeps_other_key_paths
    (props : list (string * (bool * ty))) (Changes : changes) (Path : string) :
  index_changes Changes (first_segment Path) = None ->
  ValidateKeyPath (MergeSchemaChanges (TObject props) Changes) (PStr Path)
    = ValidateKeyPath (TObject props) (PStr Path) /\
  ResolveKeyPath (MergeSchemaChanges (TObject props) Changes) (PStr Path)
    = ResolveKeyPath (TObject props) (PStr Path).
Proof.
  unfold first_segment. intros HK.
  change (MergeSchemaChanges (TObject props) Changes)
    with (merge_member (TObject props) Changes).
  cbn [ValidateKeyPath ResolveKeyPath].
  rewrite (ValidateStringPath_unfold (merge_member _ _)),
    (ValidateStringPath_unfold (TObject props)),
    (ResolveSingleKeyPath_unfold (merge_member _ _)),
    (ResolveSingleKeyPath_unfold (TObject props)).
  destruct (Template.split_at_char "." Path) as [[First Rest]|];
    rewrite (lookup_prop_merge_member _ _ _ HK);
    (split; [|reflexivity]);
    destruct (String.eqb Path ""); reflexivity.
Qed.

Lemma MergeSchemaChanges_keeps_other_key_paths_witness :
  ValidateKeyPath
    (MergeSchemaChanges Samples.User
       [("email", ChangeSchema (ZodOptional (ZodType TString)))])
    (PStr "id")
    = ValidateKeyPath Samples.User (PStr "id") /\
  ResolveKeyPath
    (MergeSchemaChanges Samples.User
       [("email", ChangeSchema (ZodOptional (ZodType TString)))])
    (PStr "id")
    = ResolveKeyPath Samples.User (PStr "id").
Proof.
  apply (MergeSchemaChanges_keeps_other_key_paths
           [required "id" TNumber; required "age" TNumber]
           [("email", ChangeSchema (ZodOptional (ZodType TString)))] "id").
  reflexivity.
Defined.

End SchemaExtras.

(** ** The text of a key path in an error message *)

Module ErrorsExtras.
Import Types KeyPath Errors GreaterThanFacts.

Lemma StringifyRest_concat First Rest :
  String.append First (StringifyRest Rest) = String.concat ", " (First :: Rest).
Proof.
  revert First. induction Rest as [|Second Rest IH]; intros First.
  - cbn [StringifyRest String.concat]. induction First as [|c First IHF].
    + reflexivity.
    + rewrite append_String, IHF. reflexivity.
  - cbn [StringifyRest]. rewrite IH. reflexivity.
Qed.

(** X17.  [Stringify] prints a literal tuple path as its elements joined
    by a comma and a space, in square brackets; the empty tuple and the
    widened [readonly string[]] are both printed as [unknown]. *)
Theorem Stringify_array_paths (First : string) (Rest : list string) :
  Stringify (PTuple (First :: Rest))
    = Some (String.append "["
              (String.append (String.concat ", " (First :: Rest)) "]")) /\
  Stringify (PTuple []) = Some "unknown" /\
  Stringify PStringArray = Some "unknown".
Proof.
  repeat split. cbn [Stringify].
  rewrite <- StringifyRest_concat, append_assoc. reflexivity.
Qed.

End ErrorsExtras.

(** ** What the builders refuse, and the identity transform *)

Module BuilderLimits.
Import Types KeyPath Schema Errors Derived Builder Invariants Notions.
Import BuilderExtras.

Lemma composite_auto_increment_never T Path :
  composite Path = true ->
  extends_never (ValidateAutoIncrementKey T Path ATrue) = true.
Proof. destruct Path; try discriminate; reflexivity. Qed.

(** X18.  With an array key path, [createObjectStore] never returns a
    builder when [autoIncrement] is [true], and [createIndex] never
    returns one when [multiEntry] is [true]: the result, where the call
    type-checks at all, is an error type. *)
Theorem composite_key_paths_refused (S : gmap string StoreInfo)
    (Path : pathTy) :
  composite Path = true ->
  (forall Name ZodSchema,
      createObjectStore S Name ZodSchema Path true = None \/
      exists e, createObjectStore S Name ZodSchema Path true = Some (Error e)) /\
  (forall StoreName IndexName Unique,
      createIndex S StoreName IndexName Path true Unique = None \/
      exists e, createIndex S StoreName IndexName Path true Unique
                = Some (Error e)).
Proof.
  intros HPath. split.
  - intros Name ZodSchema. unfold createObjectStore.
    destruct (S !! Name); [left; reflexivity|right].
    destruct (extends_never (ValidateKeyPath _ _)); [eauto|].
    cbn [autoTy_of]. rewrite composite_auto_increment_never by exact HPath.
    eauto.
  - intros StoreName IndexName Unique. unfold createIndex.
    destruct (ExtractStoreInfo S StoreName) as [Info|]; [|left; reflexivity].
    destruct (indexes Info !! IndexName); [left; reflexivity|].
    destruct Path; try discriminate HPath; right;
      destruct (extends_never (ValidateKeyPath _ _)); eauto.
Qed.

Lemma composite_key_paths_refused_witness :
  (forall Name ZodSchema,
      createObjectStore {["users" := Samples.users]} Name ZodSchema
        (PTuple ["id"; "age"]) true = None \/
      exists e, createObjectStore {["users" := Samples.users]} Name ZodSchema
                  (PTuple ["id"; "age"]) true = Some (Error e)) /\
  (forall StoreName IndexName Unique,
      createIndex {["users" := Samples.users]} StoreName IndexName
        (PTuple ["id"; "age"]) true Unique = None \/
      exists e, createIndex {["users" := Samples.users]} StoreName IndexName
                  (PTuple ["id"; "age"]) true Unique = Some (Error e)).
Proof.
  apply composite_key_paths_refused. reflexivity.
Defined.

(** X19.  In a schema whose key paths are valid, [transformRecords] with
    a transform that returns the store's own value type is accepted and
    leaves the schema as it is. *)
Theorem transformRecords_same_value (S : gmap string StoreInfo)
    (Name : string) (info : StoreInfo) :
  schema_valid S ->
  S !! Name = Some info ->
  transformRecords S Name (value info) = Some (VersionBuilder S).
Proof.
  intros HS HName. destruct (HS Name info HName) as (Hpath & Hauto & Hindexes).
  unfold transformRecords. rewrite ExtractStoreInfo_lookup, HName.
  unfold path_valid in Hpath. rewrite Hpath, Hauto.
  rewrite decide_True by (apply FindInvalidIndexKeyPath_empty, Hindexes).
  rewrite stores_UpdateStore. f_equal. f_equal.
  apply insert_id. rewrite HName. f_equal. destruct info; reflexivity.
Qed.

Lemma transformRecords_same_value_witness :
  transformRecords {["users" := Samples.users]} "users" (value Samples.users)
  = Some (VersionBuilder {["users" := Samples.users]}).
Proof.
  apply transformRecords_same_value.
  - apply map_Forall_singleton. repeat split. apply map_Forall_empty.
  - apply lookup_singleton_eq.
Defined.

(** *** What [createIndex] and [deleteIndex] change *)

Lemma with_index_frame S StoreName Info IndexName KeyPath MultiEntry Unique :
  S !! StoreName = Some Info ->
  let S' := with_index S StoreName Info IndexName KeyPath MultiEntry Unique in
  ExistingIndexes S' StoreName = ExistingIndexes S StoreName ∪ {[IndexName]} /\
  (forall K, K <> StoreName -> S' !! K = S !! K) /\
  ExtractMigrationSchemaValues S' = ExtractMigrationSchemaValues S.
Proof.
  intros HInfo S'. subst S'. unfold with_index. rewrite stores_UpdateStore.
  split; [|split].
  - unfold ExistingIndexes. rewrite lookup_insert, decide_True by reflexivity.
    rewrite HInfo. cbn. rewrite dom_insert_L. apply (comm_L (∪)).
  - intros K HK. apply lookup_insert_ne. congruence.
  - unfold ExtractMigrationSchemaValues. rewrite fmap_insert. cbn.
    apply insert_id. rewrite lookup_fmap, HInfo. reflexivity.
Qed.

(** X23.  [createIndex], where it returns a builder, adds the index name
    to the named store and changes nothing else: the other stores and
    every value type are as before.  [deleteIndex] takes the index name
    out of the named store, and likewise changes nothing else. *)
Theorem index_methods_frame (S S' : gmap string StoreInfo)
    (StoreName IndexName : string) :
  ((exists KeyPath MultiEntry Unique,
       createIndex S StoreName IndexName KeyPath MultiEntry Unique
         = Some (VersionBuilder S')) ->
   ExistingIndexes S' StoreName = ExistingIndexes S StoreName ∪ {[IndexName]} /\
   (forall K, K <> StoreName -> S' !! K = S !! K) /\
   ExtractMigrationSchemaValues S' = ExtractMigrationSchemaValues S) /\
  (deleteIndex S StoreName IndexName = Some (VersionBuilder S') ->
   ExistingIndexes S' StoreName = ExistingIndexes S StoreName ∖ {[IndexName]} /\
   (forall K, K <> StoreName -> S' !! K = S !! K) /\
   ExtractMigrationSchemaValues S' = ExtractMigrationSchemaValues S).
Proof.
  split.
  - intros (KeyPath & MultiEntry & Unique & H). revert H.
    unfold createIndex. rewrite ExtractStoreInfo_lookup. intros H.
    destruct (S !! StoreName) as [Info|] eqn:HInfo; [|discriminate].
    destruct (indexes Info !! IndexName); [discriminate|].
    destruct (extends_never (ValidateKeyPath (value Info) KeyPath)) eqn:E1.
    + destruct KeyPath; discriminate.
    + destruct KeyPath as [| |path|ps|]; try discriminate.
      * destruct (extends_true _); [|discriminate].
        injection H as <-. apply with_index_frame, HInfo.
      * destruct MultiEntry; [discriminate|].
        injection H as <-. apply with_index_frame, HInfo.
      * destruct MultiEntry; [discriminate|].
        injection H as <-. apply with_index_frame, HInfo.
  - unfold deleteIndex. rewrite ExtractStoreInfo_lookup. intros H.
    destruct (S !! StoreName) as [Info|] eqn:HInfo; [|discriminate].
    destruct (indexes Info !! IndexName); [|discriminate].
    injection H as <-. rewrite stores_UpdateStore.
    split; [|split].
    + unfold ExistingIndexes. rewrite lookup_insert, decide_True by reflexivity.
      rewrite HInfo. cbn. apply set_eq. intros index.
      rewrite elem_of_dom, elem_of_difference, elem_of_dom, elem_of_singleton.
      unfold is_Some. split.
      * intros [x Hx]. apply map_lookup_filter_Some in Hx as [Hx Hne].
        split; [eauto|exact Hne].
      * intros [[x Hx] Hne]. exists x.
        apply map_lookup_filter_Some. split; [exact Hx|exact Hne].
    + intros K HK. apply lookup_insert_ne. congruence.
    + unfold ExtractMigrationSchemaValues. rewrite fmap_insert. cbn.
      apply insert_id. rewrite lookup_fmap, HInfo. reflexivity.
Qed.

(** *** The message of an auto-increment error *)

Lemma extends_number_constituents t :
  forallb extends_number (constituents t) = extends_number t.
Proof.
  induction t as [t IH] using KeyPathFacts.ty_components_ind.
  destruct t as [| | | | | |n| |s| | | |e|es|props|ms]; try reflexivity.
  cbn [components] in IH. cbn [constituents extends_number].
  induction ms as [|m ms IHms]; [reflexivity|].
  inversion IH as [|? ? Hm Hms]; subst.
  cbn [flat_map forallb]. rewrite forallb_app, Hm, IHms by assumption.
  reflexivity.
Qed.

Lemma forallb_false_exists {A} (f : A -> bool) l :
  forallb f l = false -> exists x, In x l /\ f x = false.
Proof.
  induction l as [|a l IH]; [discriminate|]. cbn [forallb].
  destruct (f a) eqn:Ea.
  - intros H. destruct (IH H) as (x & Hx & Hf). exists x. split; [right|]; assumption.
  - intros _. exists a. split; [left; reflexivity|exact Ea].
Qed.

Lemma TypeName_other_than_number T :
  extends_number T = false ->
  exists name, In name (TypeName T) /\ name <> "number".
Proof.
  intros H. rewrite <- extends_number_constituents in H.
  apply forallb_false_exists in H. destruct H as (c & Hc & Hfalse).
  assert (Hname : exists name, In name (TypeName_constituent c)
                               /\ name <> "number").
  { destruct c as [| | | | | |n| |s| | | |e|es|props|ms];
      try discriminate Hfalse; cbn [TypeName_constituent];
      try (eexists; split; [left; reflexivity|discriminate]).
    - destruct (extends_IDBValidKey e);
        (eexists; split; [left; reflexivity|discriminate]).
    - destruct (forallb extends_IDBValidKey es);
        (eexists; split; [left; reflexivity|discriminate]). }
  destruct Hname as (name & Hin & Hne). exists name. split; [|exact Hne].
  unfold TypeName. apply in_flat_map. exists c. split; assumption.
Qed.

(** X24.  When [createObjectStore] refuses a string primary key for
    [autoIncrement: true], the message of the error names the key path
    and at least one type other than [number] that the path resolves
    to. *)
Theorem createObjectStore_autoIncrement_message
    (S : gmap string StoreInfo) (Name : string) (ZodSchema : zod)
    (path : string) (e : MigrationError) :
  createObjectStore S Name ZodSchema (PStr path) true = Some (Error e) ->
  __error e = "InvalidAutoIncrementKey" ->
  exists name,
    name <> "number" /\
    In name (TypeName (ResolveKeyPath (z_infer ZodSchema) (PStr path))) /\
    In (String.append
          "autoIncrement requires keyPath to resolve to number, but '"
          (String.append path (String.append "' resolves to " name)))
       (__message e).
Proof.
  unfold createObjectStore. intros H Hkind.
  destruct (S !! Name); [discriminate|].
  destruct (extends_never (ValidateKeyPath _ _)).
  { injection H as <-. discriminate Hkind. }
  cbn [autoTy_of ValidateAutoIncrementKey ResolveKeyPath] in H.
  cbn [ResolveKeyPath].
  destruct (number_extends (ResolveSingleKeyPath (z_infer ZodSchema) path));
    [discriminate|].
  destruct (extends_number (ResolveSingleKeyPath (z_infer ZodSchema) path))
    eqn:En; [discriminate|].
  cbn [extends_never] in H. injection H as <-.
  destruct (TypeName_other_than_number _ En) as (name & Hin & Hne).
  exists name. split; [exact Hne|]. split; [exact Hin|].
  cbn [__message InvalidAutoIncrementKey Stringify of_option template map
       flat_map].
  rewrite app_nil_r. unfold template. apply in_map_iff. exists name.
  split; [|exact Hin].
  rewrite GreaterThanFacts.append_assoc.
  assert (E : String.append name "" = name).
  { clear. induction name as [|c name IH]; [reflexivity|].
    rewrite GreaterThanFacts.append_String, IH. reflexivity. }
  rewrite E. f_equal. apply GreaterThanFacts.append_assoc.
Qed.

Lemma createObjectStore_autoIncrement_message_witness :
  exists name,
    name <> "number" /\
    In name (TypeName (ResolveKeyPath
                         (z_infer (ZodType (TObject [required "id" TString])))
                         (PStr "id"))) /\
    In (String.append
          "autoIncrement requires keyPath to resolve to number, but '"
          (String.append "id" (String.append "' resolves to " name)))
       (__message
          (InvalidAutoIncrementKey
             ["autoIncrement requires keyPath to resolve to number, but 'id' resolves to string"])).
Proof.
  apply (createObjectStore_autoIncrement_message ∅ "users"
           (ZodType (TObject [required "id" TString])) "id").
  - reflexivity.
  - reflexivity.
Defined.

End BuilderLimits.

(** ** [addCutAfterImports] *)

Module CodeImportSpec.
Import CodeImport.

Lemma split_nonempty code : split code <> [].
Proof.
  destruct code as [|c rest]; cbn [split]; [discriminate|].
  destruct (N.eqb c 10); [discriminate|].
  destruct (split rest); discriminate.
Qed.

(** Joining the lines of a text gives the text back. *)
Lemma join_split code : join (split code) = code.
Proof.
  induction code as [|c rest IH]; [reflexivity|].
  cbn [split]. pose proof (split_nonempty rest) as Hne.
  destruct (N.eqb_spec c 10) as [->|Hc].
  - cbn [join]. destruct (split rest) as [|line lines]; [contradiction|].
    rewrite IH. reflexivity.
  - destruct (split rest) as [|line lines]; [contradiction|].
    cbn [join] in IH |- *. destruct lines; rewrite <- IH; reflexivity.
Qed.

Lemma scan_no_header_import lines i lastImportIndex :
  no_header_import lines = true ->
  scan lines i lastImportIndex = lastImportIndex.
Proof.
  revert i. induction lines as [|l rest IH]; intros i H; [reflexivity|].
  cbn [scan no_header_import] in *.
  destruct (is_import (trim l)); [discriminate|].
  destruct (is_code (trim l)); [reflexivity|]. apply IH, H.
Qed.

Lemma scan_blank blanks rest i lastImportIndex :
  forallb (fun l => is_empty (trim l)) blanks = true ->
  scan (blanks ++ rest) i lastImportIndex
  = scan rest (i + Z.of_nat (length blanks)) lastImportIndex.
Proof.
  revert i. induction blanks as [|b blanks IH]; intros i H.
  - cbn. f_equal. lia.
  - cbn [forallb] in H. apply andb_true_iff in H as [Hb H].
    cbn [app scan length].
    destruct (trim b); [|discriminate]. cbn [is_import is_code].
    change (is_import []) with false. change (is_code []) with false.
    cbv iota. rewrite IH by exact H. f_equal. lia.
Qed.

Lemma scan_header header imp rest i lastImportIndex :
  forallb header_line header = true ->
  is_import (trim imp) = true ->
  scan (header ++ imp :: rest) i lastImportIndex
  = scan rest (i + Z.of_nat (length header) + 1) (i + Z.of_nat (length header)).
Proof.
  intros Hheader Himp. revert i lastImportIndex.
  induction header as [|h header IH]; intros i lastImportIndex.
  - cbn [app scan length]. rewrite Himp. f_equal; lia.
  - cbn [forallb] in Hheader. apply andb_true_iff in Hheader as [Hh Hheader].
    cbn [app scan length]. unfold header_line in Hh.
    destruct (is_import (trim h)).
    + rewrite IH by exact Hheader. f_equal; lia.
    + cbn in Hh. destruct (is_code (trim h)); [discriminate|].
      rewrite IH by exact Hheader. f_equal; lia.
Qed.

(** The [while] loop removes the blank lines at [insertIndex] and stops
    at the first line that is not blank, or at the end. *)
Lemma remove_blank_spec rounds before blanks tail :
  (length blanks <= rounds)%nat ->
  forallb (fun l => is_empty (trim l)) blanks = true ->
  starts_non_blank tail = true ->
  remove_blank rounds (before ++ blanks ++ tail) (length before)
  = (before ++ tail)%list.
Proof.
  revert rounds. induction blanks as [|b blanks IH]; intros rounds Hrounds Hblanks Htail.
  - cbn [app]. destruct rounds as [|rounds]; [reflexivity|].
    cbn [remove_blank]. destruct tail as [|t tail].
    + rewrite lookup_ge_None_2 by (rewrite app_nil_r; lia). reflexivity.
    + rewrite list_lookup_middle by reflexivity.
      cbn in Htail. destruct (is_empty (trim t)); [discriminate|reflexivity].
  - cbn [length] in Hrounds. destruct rounds as [|rounds]; [lia|].
    cbn [forallb] in Hblanks. apply andb_true_iff in Hblanks as [Hb Hblanks].
    cbn [remove_blank app].
    rewrite list_lookup_middle by reflexivity. rewrite Hb.
    rewrite delete_middle. apply IH; [lia|assumption|assumption].
Qed.

(** With [length lines] rounds the [while] loop has ended by itself: the
    line at [insertIndex], if there is one, is not blank. *)
Lemma remove_blank_stops rounds lines insertIndex :
  (length lines <= rounds)%nat ->
  match remove_blank rounds lines insertIndex !! insertIndex with
  | Some l => is_empty (trim l) = false
  | None => True
  end.
Proof.
  revert lines. induction rounds as [|rounds IH]; intros lines Hrounds.
  - destruct lines; [|cbn in Hrounds; lia]. cbn [remove_blank].
    rewrite lookup_nil. exact I.
  - cbn [remove_blank].
    destruct (lines !! insertIndex) as [l|] eqn:El.
    + destruct (is_empty (trim l)) eqn:Eb.
      * apply IH.
        assert (Hsome : is_Some (lines !! insertIndex)) by (rewrite El; eauto).
        rewrite (length_delete _ _ Hsome).
        apply lookup_lt_Some in El. lia.
      * rewrite El. exact Eb.
    + rewrite El. exact I.
Qed.

Lemma cut_lines_no_header_import lines :
  no_header_import lines = true -> cut_lines lines = lines.
Proof.
  intros H. unfold cut_lines. rewrite scan_no_header_import by exact H.
  reflexivity.
Qed.

Lemma cut_lines_after_last_import header imp blanks tail :
  forallb header_line header = true ->
  is_import (trim imp) = true ->
  forallb (fun l => is_empty (trim l)) blanks = true ->
  starts_non_blank tail = true ->
  no_header_import tail = true ->
  cut_lines (header ++ imp :: blanks ++ tail)
  = (header ++ imp :: cut_marker :: tail)%list.
Proof.
  intros Hheader Himp Hblanks Htail Hnone. unfold cut_lines.
  rewrite scan_header by assumption.
  rewrite scan_blank by assumption.
  rewrite scan_no_header_import by assumption.
  replace (negb (0 + Z.of_nat (length header) =? -1)) with true
    by (symmetry; apply negb_true_iff, Z.eqb_neq; lia).
  replace (Z.to_nat (0 + Z.of_nat (length header) + 1))
    with (length (header ++ [imp])) by (rewrite length_app; cbn; lia).
  replace (header ++ imp :: blanks ++ tail)%list
    with ((header ++ [imp]) ++ blanks ++ tail)%list
    by (rewrite <- app_assoc; reflexivity).
  rewrite remove_blank_spec; try assumption.
  - rewrite take_app_length, drop_app_length, <- app_assoc. reflexivity.
  - rewrite !length_app. lia.
Qed.

(** X20.  Where no import statement or twoslash directive comes before
    the first line of code, [addCutAfterImports] inserts nothing: the
    result is the trimmed text. *)
Theorem addCutAfterImports_without_imports (code : jsstring) :
  no_header_import (split code) = true ->
  addCutAfterImports code = trim code.
Proof.
  intros H. unfold addCutAfterImports.
  rewrite cut_lines_no_header_import by exact H.
  rewrite join_split. reflexivity.
Qed.

Lemma addCutAfterImports_without_imports_witness :
  addCutAfterImports (units "const x = 1 // import nothing")
  = trim (units "const x = 1 // import nothing").
Proof.
  apply addCutAfterImports_without_imports. reflexivity.
Defined.

(** X21.  Where the lines of the text are: lines the loop does not stop
    at, then an import statement or directive, then blank lines, then
    lines that hold no import or directive before their first line of
    code, the marker line is put right after that import, the blank
    lines that followed it are dropped, and every other line is kept. *)
Theorem addCutAfterImports_after_last_import
    (code : jsstring) (header : list jsstring) (imp : jsstring)
    (blanks tail : list jsstring) :
  split code = (header ++ imp :: blanks ++ tail)%list ->
  forallb header_line header = true ->
  is_import (trim imp) = true ->
  forallb (fun l => is_empty (trim l)) blanks = true ->
  starts_non_blank tail = true ->
  no_header_import tail = true ->
  addCutAfterImports code
  = trim (join (header ++ imp :: cut_marker :: tail)).
Proof.
  intros Hsplit Hheader Himp Hblanks Htail Hnone. unfold addCutAfterImports.
  rewrite Hsplit, cut_lines_after_last_import by assumption. reflexivity.
Qed.

Lemma addCutAfterImports_after_last_import_witness :
  addCutAfterImports
    (join [units "// @errors: 2322"; units "import { z } from 'zod'";
           []; units "  "; units "const x = 1"])
  = trim (join [units "// @errors: 2322"; units "import { z } from 'zod'";
                cut_marker; units "const x = 1"]).
Proof.
  apply (addCutAfterImports_after_last_import _
           [units "// @errors: 2322"] (units "import { z } from 'zod'")
           [[]; units "  "] [units "const x = 1"]); reflexivity.
Defined.

(** *** Trimmed texts *)

Lemma trimStart_id s : starts_nonspace s = true -> trimStart s = s.
Proof.
  destruct s as [|c s]; [reflexivity|]. cbn.
  destruct (is_space c); [discriminate|reflexivity].
Qed.

Lemma trim_id s :
  starts_nonspace s = true -> ends_nonspace s = true -> trim s = s.
Proof.
  intros Hs He. unfold trim, trimEnd.
  rewrite (trimStart_id s) by exact Hs.
  rewrite (trimStart_id (rev s)) by exact He. apply rev_involutive.
Qed.

Lemma trimStart_length s : (length (trimStart s) <= length s)%nat.
Proof.
  induction s as [|c s IH]; [reflexivity|]. cbn [trimStart].
  destruct (is_space c); cbn [length]; lia.
Qed.

Lemma trimStart_fixed s :
  length (trimStart s) = length s -> s <> [] -> starts_nonspace s = true.
Proof.
  destruct s as [|c s]; [contradiction|]. cbn [trimStart starts_nonspace].
  destruct (is_space c); [|reflexivity].
  pose proof (trimStart_length s). cbn [length]. lia.
Qed.

(** A text that [trim] leaves as it is, and is not empty, starts and ends
    with a code unit that is no white space. *)
Lemma trim_fixed s :
  trim s = s -> s <> [] ->
  starts_nonspace s = true /\ ends_nonspace s = true.
Proof.
  intros Htrim Hne.
  assert (Hlen : length (trim s) = length s) by (rewrite Htrim; reflexivity).
  unfold trim, trimEnd in Hlen. rewrite length_rev in Hlen.
  pose proof (trimStart_length (rev (trimStart s))) as H1.
  pose proof (trimStart_length s) as H2.
  rewrite length_rev in H1.
  assert (Hs : starts_nonspace s = true)
    by (apply trimStart_fixed; [lia|exact Hne]).
  split; [exact Hs|].
  rewrite (trimStart_id s Hs) in Hlen.
  apply trimStart_fixed; [rewrite length_rev; exact Hlen|].
  intros Hrev. apply Hne. rewrite <- (rev_involutive s), Hrev. reflexivity.
Qed.

Lemma join_cons l l' rest :
  join (l :: l' :: rest) = (l ++ 10%N :: join (l' :: rest))%list.
Proof. reflexivity. Qed.

Lemma join_snoc before l :
  before <> [] ->
  join (before ++ [l]) = (join before ++ 10%N :: l)%list.
Proof.
  induction before as [|b before IH]; [contradiction|]. intros _.
  destruct before as [|b' before]; [reflexivity|].
  change ((b :: b' :: before) ++ [l])%list
    with (b :: (b' :: before) ++ [l])%list.
  cbn [app]. rewrite join_cons.
  change (b' :: (before ++ [l]))%list with ((b' :: before) ++ [l])%list.
  rewrite IH by discriminate. rewrite join_cons, <- app_assoc. reflexivity.
Qed.

Lemma join_starts lines first :
  head lines = Some first ->
  starts_nonspace (join lines) = starts_nonspace first.
Proof.
  destruct lines as [|l rest]; [discriminate|]. intros [= ->].
  destruct rest as [|l' rest]; [reflexivity|]. rewrite join_cons.
  destruct first as [|c first]; reflexivity.
Qed.

Lemma join_ends lines l :
  last lines = Some l ->
  ends_nonspace (join lines) = ends_nonspace l.
Proof.
  intros Hlast. apply last_Some in Hlast as [before ->].
  destruct before as [|b before]; [reflexivity|].
  rewrite join_snoc by discriminate. unfold ends_nonspace.
  rewrite rev_app_distr. cbn [rev]. rewrite <- app_assoc.
  destruct (rev l) as [|c r]; reflexivity.
Qed.

(** A text made of lines whose first starts and whose last ends with a
    code unit that is no white space is left as it is by [trim]. *)
Lemma trim_join_id lines first l :
  head lines = Some first -> last lines = Some l ->
  starts_nonspace first = true -> ends_nonspace l = true ->
  trim (join lines) = join lines.
Proof.
  intros Hhead Hlast Hfirst Hl. apply trim_id.
  - rewrite (join_starts _ _ Hhead). exact Hfirst.
  - rewrite (join_ends _ _ Hlast). exact Hl.
Qed.

(** *** Splitting a joined text *)

Lemma split_no_newline code : forallb no_newline (split code) = true.
Proof.
  induction code as [|c rest IH]; [reflexivity|]. cbn [split].
  destruct (N.eqb c 10) eqn:Ec; [exact IH|].
  destruct (split rest) as [|line lines]; cbn in IH |- *; rewrite Ec;
    [reflexivity|exact IH].
Qed.

Lemma split_line l : no_newline l = true -> split l = [l].
Proof.
  induction l as [|c l IH]; [reflexivity|]. cbn [no_newline forallb].
  intros H. apply andb_true_iff in H as [Hc Hl]. cbn [split].
  destruct (N.eqb c 10); [discriminate|]. rewrite (IH Hl). reflexivity.
Qed.

Lemma split_line_newline l rest :
  no_newline l = true -> split (l ++ 10%N :: rest)%list = l :: split rest.
Proof.
  induction l as [|c l IH]; [reflexivity|]. cbn [no_newline forallb].
  intros H. apply andb_true_iff in H as [Hc Hl]. cbn [app split].
  destruct (N.eqb c 10); [discriminate|]. rewrite (IH Hl). reflexivity.
Qed.

(** Splitting the join of lines that hold no line feed gives the lines
    back. *)
Lemma split_join lines :
  lines <> [] -> forallb no_newline lines = true -> split (join lines) = lines.
Proof.
  induction lines as [|l rest IH]; [contradiction|]. intros _ H.
  cbn [forallb] in H. apply andb_true_iff in H as [Hl Hrest].
  destruct rest as [|l' rest]; [apply split_line, Hl|].
  rewrite join_cons, split_line_newline by exact Hl.
  rewrite IH by (discriminate || exact Hrest). reflexivity.
Qed.

(** *** Two passes *)

Lemma is_import_nonempty l : is_import (trim l) = true -> l <> [].
Proof. intros H ->. discriminate H. Qed.

(** X22.  On a trimmed text with an import header the result is the
    lines with the marker, joined, and [addCutAfterImports] applied to
    its own result puts a second marker line after the first: the marker
    is a comment the loop passes over, so the second pass finds the same
    last import. *)
Theorem addCutAfterImports_twice
    (code : jsstring) (header : list jsstring) (imp : jsstring)
    (blanks tail : list jsstring) :
  trim code = code ->
  split code = (header ++ imp :: blanks ++ tail)%list ->
  forallb header_line header = true ->
  is_import (trim imp) = true ->
  forallb (fun l => is_empty (trim l)) blanks = true ->
  starts_non_blank tail = true ->
  no_header_import tail = true ->
  addCutAfterImports code = join (header ++ imp :: cut_marker :: tail) /\
  addCutAfterImports (addCutAfterImports code)
  = join (header ++ imp :: cut_marker :: cut_marker :: tail).
Proof.
  intros Htrim Hsplit Hheader Himp Hblanks Htail Hnone.
  assert (Hcode : code <> []).
  { intros ->. cbn in Hsplit. destruct header as [|h header].
    - injection Hsplit as <- _. discriminate Himp.
    - injection Hsplit as _ Hrest. destruct header; discriminate Hrest. }
  destruct (trim_fixed code Htrim Hcode) as [Hstart Hend].
  rewrite <- (join_split code), Hsplit in Hstart, Hend.
  pose proof (split_no_newline code) as Hlines. rewrite Hsplit in Hlines.
  rewrite forallb_app in Hlines. apply andb_true_iff in Hlines as [Hl1 Hl2].
  cbn [forallb] in Hl2. apply andb_true_iff in Hl2 as [Hl2 Hl3].
  rewrite forallb_app in Hl3. apply andb_true_iff in Hl3 as [_ Hl3].
  (* the first line *)
  assert (Hfirst : exists first,
             head (header ++ [imp]) = Some first /\
             starts_nonspace first = true).
  { destruct header as [|h header].
    - exists imp. split; [reflexivity|].
      rewrite (join_starts _ imp) in Hstart by reflexivity. exact Hstart.
    - exists h. split; [reflexivity|].
      rewrite (join_starts _ h) in Hstart by reflexivity. exact Hstart. }
  destruct Hfirst as (first & Hhead & Hfirst).
  (* the last line *)
  assert (Hlast : forall middle,
             exists l,
               last (header ++ imp :: middle ++ cut_marker :: tail) = Some l /\
               ends_nonspace l = true).
  { intros middle. destruct (last tail) as [l|] eqn:El.
    - exists l. split.
      + rewrite last_app, last_cons, last_app, last_cons, El. reflexivity.
      + rewrite (join_ends _ l) in Hend; [exact Hend|].
        rewrite last_app, last_cons, last_app, El. reflexivity.
    - exists cut_marker. split; [|reflexivity].
      rewrite last_app, last_cons, last_app, last_cons, El. reflexivity. }
  assert (Hhead' : forall rest,
             head (header ++ imp :: rest) = Some first).
  { intros rest. rewrite head_app in Hhead |- *.
    destruct (head header); exact Hhead. }
  assert (Hfirst_pass :
            addCutAfterImports code = join (header ++ imp :: cut_marker :: tail)).
  { unfold addCutAfterImports.
    rewrite Hsplit, cut_lines_after_last_import by assumption.
    destruct (Hlast []) as (l & Hl & Hends).
    exact (trim_join_id _ first l (Hhead' _) Hl Hfirst Hends). }
  split; [exact Hfirst_pass|].
  rewrite Hfirst_pass. unfold addCutAfterImports.
  rewrite split_join.
  - pose proof (cut_lines_after_last_import header imp [] (cut_marker :: tail)
                  Hheader Himp eq_refl eq_refl Hnone) as Hsecond.
    change ([] ++ cut_marker :: tail)%list with (cut_marker :: tail) in Hsecond.
    rewrite Hsecond.
    destruct (Hlast [cut_marker]) as (l & Hl & Hends).
    exact (trim_join_id _ first l (Hhead' _) Hl Hfirst Hends).
  - destruct header; discriminate.
  - rewrite forallb_app. cbn [forallb]. rewrite Hl1, Hl2, Hl3. reflexivity.
Qed.

Lemma addCutAfterImports_twice_witness :
  addCutAfterImports
    (join [units "import { z } from 'zod'"; []; units "const x = 1"])
  = join [units "import { z } from 'zod'"; cut_marker; units "const x = 1"] /\
  addCutAfterImports
    (addCutAfterImports
       (join [units "import { z } from 'zod'"; []; units "const x = 1"]))
  = join [units "import { z } from 'zod'"; cut_marker; cut_marker;
          units "const x = 1"].
Proof.
  apply (addCutAfterImports_twice _ [] (units "import { z } from 'zod'") [[]]
           [units "const x = 1"]); reflexivity.
Defined.

End CodeImportSpec.
